(** * Ultrasonic-Agent: the workflow simulator and its readiness gates

    A shallow embedding of [engine/simulator.py] and [engine/validators.py].

    Conventions of the embedding.
    - A Python [dict] keyed by strings is a [gmap string _]; a Python [set]
      of strings is a [gset string].  Two dictionaries with the same
      entries are equal, which is Python's [==] on dictionaries.
    - Python values stored in the state are the terms of [value].  Floats
      are not represented.  A dictionary nested inside a value is an
      association list read at its first matching key.
    - Strings are Rocq strings, i.e. sequences of bytes; the character
      classes used by [strip], [upper], [int] and the regular expression
      of [_rank] are the ASCII ones.
    - [step] mutates its two arguments in place and returns them; here it
      returns the new state and history in the result record.  A Python
      exception ([KeyError] on a missing action key, [TypeError] inside
      CLARIFY) is the result [None]; every such exception is raised before
      the first mutation. *)

From Stdlib Require Import Ascii String Sorted.
From stdpp Require Import gmap strings list fin_maps relations pretty.

Set Warnings "-clear-no-such-hyp".

Open Scope string_scope.

(** ** Python values *)

#[warnings="-register-all"]
Inductive value : Type :=
  | VNone
  | VBool (b : bool)
  | VInt (z : Z)
  | VStr (s : string)
  | VList (l : list value)
  | VDict (d : list (string * value)).

(** Python truthiness, as used by [x or y]. *)
Definition truthy (v : value) : bool :=
  match v with
  | VNone => false
  | VBool b => b
  | VInt z => negb (Z.eqb z 0)
  | VStr s => negb (String.eqb s EmptyString)
  | VList l => match l with [] => false | _ => true end
  | VDict d => match d with [] => false | _ => true end
  end.

(** [a or b]. *)
Definition py_or (a b : value) : value := if truthy a then a else b.

(** [v not in (None, '', [], {})]: neither [None] nor an empty string,
    list or dictionary. *)
Definition nonempty (v : value) : bool :=
  match v with
  | VNone => false
  | VStr s => negb (String.eqb s EmptyString)
  | VList l => match l with [] => false | _ => true end
  | VDict d => match d with [] => false | _ => true end
  | VBool _ | VInt _ => true
  end.

(** [d.get(k)] on a nested dictionary, [None] when the key is missing. *)
Fixpoint assoc_get (d : list (string * value)) (k : string) : value :=
  match d with
  | [] => VNone
  | (k', v) :: rest => if String.eqb k' k then v else assoc_get rest k
  end.

(** [state.get(k)], [None] when the key is missing. *)
Definition state_get (state : gmap string value) (k : string) : value :=
  default VNone (state !! k).

(** ** The simulator object

    The attributes that [Simulator.__init__] builds from the parsed
    configuration: the edges of the node graph, node -> produces set, the
    always-cleared report fields, the aggregate nodes and the rule table.
    A rule entry is the dictionary found under a node in [rules]; its
    only key read by the simulator is [clears]. *)

Record RuleEntry := { clears : option (list string) }.

Record Simulator := {
  node_graph : gmap string (list string);
  _produces : gmap string (gset string);
  _reports_fixed : gset string;
  _aggregate_nodes : gset string;
  _rule_clears : gmap string RuleEntry;
}.

(** [self._produces.get(n, set())]. *)
Definition produces_of (sim : Simulator) (n : string) : gset string :=
  default ∅ (_produces sim !! n).

(** [self.node_graph.get(cur, [])]. *)
Definition successors (g : gmap string (list string)) (cur : string) : list string :=
  default [] (g !! cur).

(** [Simulator._write_set]; the list it returns is only iterated. *)
Definition _write_set (sim : Simulator) (node : string) : gset string :=
  produces_of sim node.

(** ** Graph closure: [Simulator._downstream_nodes]

    The work list [q] is a Python list used as a stack ([pop] takes the
    last element, [append] adds at the end); here the top of the stack is
    the head of the list.  One iteration of the inner [for] is [visit]. *)

Definition visit (acc : gset string * list string) (nxt : string)
    : gset string * list string :=
  if decide (nxt ∈ acc.1) then acc else ({[nxt]} ∪ acc.1, nxt :: acc.2).

(** The [while q:] loop, bounded by [fuel] iterations; [None] when the
    fuel runs out before the work list is empty. *)
Fixpoint downstream_loop (fuel : nat) (g : gmap string (list string))
    (seen : gset string) (q : list string) : option (gset string) :=
  match q with
  | [] => Some seen
  | cur :: rest =>
      match fuel with
      | O => None
      | S fuel' =>
          let acc := foldl visit (seen, rest) (successors g cur) in
          downstream_loop fuel' g acc.1 acc.2
      end
  end.

(** Every node that occurs as the target of an edge. *)
Definition edge_targets (g : gmap string (list string)) : gset string :=
  ⋃ ((λ kv, list_to_set kv.2) <$> map_to_list g).

(** Each node is pushed at most once, so the loop body runs at most once
    for the start node and once per edge target. *)
Definition downstream_fuel (g : gmap string (list string)) : nat :=
  S (size (edge_targets g)).

Definition downstream_run (fuel : nat) (g : gmap string (list string))
    (node : string) : option (gset string) :=
  (λ seen, seen ∖ {[node]}) <$> downstream_loop fuel g ∅ [node].

(** [Simulator._downstream_nodes]; the list it returns is only iterated
    or turned into a set.  [downstream_run_enough] shows that the default
    is never taken. *)
Definition _downstream_nodes (sim : Simulator) (node : string) : gset string :=
  default ∅ (downstream_run (downstream_fuel (node_graph sim)) (node_graph sim) node).

(** [a -> b] is an edge of the graph. *)
Definition edge (g : gmap string (list string)) (a b : string) : Prop :=
  b ∈ successors g a.

(** [b] is transitively reachable from [a] along at least one edge. *)
Definition reachable (g : gmap string (list string)) : relation string :=
  tc (edge g).

(** The loop invariant of [_downstream_nodes]: what is seen is reachable
    from [node]; what waits on the work list is [node] or seen; and every
    node handled so far ([node] or seen, no longer waiting) has all its
    successors seen. *)
Definition traversal_inv (g : gmap string (list string)) (node : string)
    (seen : gset string) (q : list string) : Prop :=
  (∀ x, x ∈ seen → reachable g node x)
  ∧ (∀ x, x ∈ q → x = node ∨ x ∈ seen)
  ∧ (∀ x, x = node ∨ x ∈ seen → x ∈ q ∨ ∀ y, edge g x y → y ∈ seen).

(** ** Clear sets of the rollback policies *)

(** The fields one target contributes in [_clears_full_downstream]:
    its rule's [clears] list when that is non-empty, else its produces. *)
Definition clears_of_target (sim : Simulator) (n : string) : gset string :=
  match _rule_clears sim !! n with
  | Some {| clears := Some (f :: fs) |} => list_to_set (f :: fs)
  | _ => produces_of sim n
  end.

(** [Simulator._clears_full_downstream]; the sorted list it returns is
    only measured with [len] and iterated by [_apply_clear]. *)
Definition _clears_full_downstream (sim : Simulator) (node : string) : gset string :=
  let targets := {[node]} ∪ _downstream_nodes sim node in
  set_fold (λ n fields, clears_of_target sim n ∪ fields) ∅ targets
    ∪ _reports_fixed sim.

(** [Simulator._clears_aggregate_only]. *)
Definition _clears_aggregate_only (sim : Simulator) (node : string) : gset string :=
  set_fold (λ d fields,
              if decide (d ∈ _aggregate_nodes sim)
              then produces_of sim d ∪ fields else fields)
           (produces_of sim node) (_downstream_nodes sim node)
    ∪ _reports_fixed sim.

(** [Simulator._apply_clear]: [state.pop(f, None)] for each field. *)
Definition _apply_clear (state : gmap string value) (fields : gset string)
    : gmap string value :=
  set_fold (λ f st, delete f st) state fields.

(** ** Python string primitives (ASCII) *)

(** [str.isspace] on one ASCII character: TAB..CR, FS..US and space. *)
Definition is_space (c : ascii) : bool :=
  let n := nat_of_ascii c in
  ((9 <=? n) && (n <=? 13) || (28 <=? n) && (n <=? 32))%nat.

Definition is_digit (c : ascii) : bool :=
  let n := nat_of_ascii c in ((48 <=? n) && (n <=? 57))%nat.

Fixpoint skip_spaces (l : list ascii) : list ascii :=
  match l with
  | c :: r => if is_space c then skip_spaces r else l
  | [] => []
  end.

(** [s.strip()]. *)
Definition py_strip (l : list ascii) : list ascii :=
  rev (skip_spaces (rev (skip_spaces l))).

(** [s.upper()]. *)
Definition upper_char (c : ascii) : ascii :=
  let n := nat_of_ascii c in
  if ((97 <=? n) && (n <=? 122))%nat then ascii_of_nat (n - 32) else c.

Definition py_upper (l : list ascii) : list ascii := map upper_char l.

(** [l] minus the prefix [p], when [l] starts with [p]. *)
Fixpoint strip_prefix (p l : list ascii) : option (list ascii) :=
  match p, l with
  | [], _ => Some l
  | a :: p', b :: l' => if Ascii.eqb a b then strip_prefix p' l' else None
  | _ :: _, [] => None
  end.

Definition quote1 : ascii := "'"%char.
Definition quote2 : ascii := ascii_of_nat 34.
Definition backslash : ascii := ascii_of_nat 92.

Definition hex_digit (n : nat) : ascii :=
  if (n <? 10)%nat then ascii_of_nat (48 + n) else ascii_of_nat (87 + n).

(** One character of [repr(s)] inside the quote [q]. *)
Definition repr_char (q c : ascii) : list ascii :=
  let n := nat_of_ascii c in
  if Ascii.eqb c backslash || Ascii.eqb c q then [backslash; c]
  else if (n =? 9)%nat then [backslash; "t"%char]
  else if (n =? 10)%nat then [backslash; "n"%char]
  else if (n =? 13)%nat then [backslash; "r"%char]
  else if ((n <? 32) || (n =? 127))%nat
       then [backslash; "x"%char; hex_digit (n / 16); hex_digit (n mod 16)]
  else [c].

(** [repr(s)] of a string: single quotes, unless the string holds a
    single quote and no double quote. *)
Definition py_repr_str (s : string) : string :=
  let l := list_ascii_of_string s in
  let q := if existsb (Ascii.eqb quote1) l && negb (existsb (Ascii.eqb quote2) l)
           then quote2 else quote1 in
  string_of_list_ascii ([q] ++ concat (map (repr_char q) l) ++ [q])%list.

(** [repr] of a list whose items are already rendered. *)
Definition bracketed (items : list string) : string :=
  "[" +:+ String.concat ", " items +:+ "]".

(** [repr(l)] of a list of strings, as an f-string prints it. *)
Definition py_repr_strs (l : list string) : string :=
  bracketed (map py_repr_str l).

(** [repr(v)]. *)
Fixpoint py_repr (v : value) : string :=
  match v with
  | VNone => "None"
  | VBool b => if b then "True" else "False"
  | VInt z => pretty z
  | VStr s => py_repr_str s
  | VList l => bracketed (map py_repr l)
  | VDict d =>
      "{" +:+ String.concat ", "
                (map (λ kv, match kv with
                            | (k, x) => py_repr_str k +:+ ": " +:+ py_repr x
                            end) d)
          +:+ "}"
  end.

(** [str(v)]. *)
Definition py_str (v : value) : string :=
  match v with VStr s => s | _ => py_repr v end.

Fixpoint insert_sorted (x : string) (l : list string) : list string :=
  match l with
  | [] => [x]
  | y :: r => if String.leb x y then x :: l else y :: insert_sorted x r
  end.

(** [sorted(xs)] on strings. *)
Definition py_sorted (l : list string) : list string :=
  foldr insert_sorted [] l.

(** [sorted(s)] on a set of strings. *)
Definition sorted_set (s : gset string) : list string := py_sorted (elements s).

(** The digits of [int(s)] after the sign: decimal digits, single
    underscores allowed between two digits. *)
Fixpoint digits_value (acc : Z) (after_digit : bool) (l : list ascii) : option Z :=
  match l with
  | [] => if after_digit then Some acc else None
  | c :: r =>
      if is_digit c
      then digits_value (10 * acc + (Z.of_nat (nat_of_ascii c) - 48))%Z true r
      else if Ascii.eqb c "_"%char && after_digit then digits_value acc false r
      else None
  end.

(** [int(s)] on a string; [None] is [ValueError]. *)
Definition parse_int (s : string) : option Z :=
  match py_strip (list_ascii_of_string s) with
  | c :: r =>
      if Ascii.eqb c "-"%char then Z.opp <$> digits_value 0 false r
      else if Ascii.eqb c "+"%char then digits_value 0 false r
      else digits_value 0 false (c :: r)
  | [] => None
  end.

(** [int(v)]; [None] is [TypeError] or [ValueError]. *)
Definition py_int (v : value) : option Z :=
  match v with
  | VBool b => Some (if b then 1 else 0)%Z
  | VInt z => Some z
  | VStr s => parse_int s
  | VNone | VList _ | VDict _ => None
  end.

(** ** Readiness validator: [engine/validators.py] *)

Record ValidateResult := {
  passed : bool;
  errors : list string;
  warnings : list string;
}.

Definition KEY_ALIASES : list (string * list string) :=
  [ ("state.tirads_score",
     [ "state.ti_rads_score"; "ti_rads_score";
       "state.thyroid_nodules_detail.nodules.ti_rads_score_overall" ]);
    ("state.tirads_label", [ "state.ti_rads_overall"; "ti_rads_overall" ]);
    ("state.conclusion_text", [ "reports.conclusion_text" ]);
    ("state.recommendation",
     [ "reports.recommendation"; "reports.follow_up_plan" ]);
    ("state.thyroid_nodules_quantity", [ "thyroid_nodules_quantity" ]) ].

(** [KEY_ALIASES.get(key, [])]. *)
Fixpoint aliases_in (table : list (string * list string)) (key : string)
    : list string :=
  match table with
  | [] => []
  | (k, alts) :: rest => if String.eqb k key then alts else aliases_in rest key
  end.

(** The [for alt in ...] loop of [_get]. *)
Fixpoint first_alias (state : gmap string value) (alts : list string) : value :=
  match alts with
  | [] => VNone
  | alt :: rest =>
      match state !! alt with
      | Some v => v
      | None => first_alias state rest
      end
  end.

(** [_get], over an alias table. *)
Definition get_with (table : list (string * list string))
    (state : gmap string value) (key : string) : value :=
  match state !! key with
  | Some v => v
  | None => first_alias state (aliases_in table key)
  end.

Definition _get (state : gmap string value) (key : string) : value :=
  get_with KEY_ALIASES state key.

Definition _present (state : gmap string value) (key : string) : bool :=
  nonempty (_get state key).

Definition REQUIRED_FOR_REPORT : list string :=
  [ "state.conclusion_text"; "state.recommendation" ].

Definition MUTEX_GROUPS : list (list string) :=
  [ [ "state.conclusion_benign"; "state.conclusion_malignant" ];
    [ "state.func_hyper"; "state.func_hypo" ] ].

(** [_is_no_nodule]; the [except] branch is the [None] of [py_int]. *)
Definition _is_no_nodule (state : gmap string value) : bool :=
  match _get state "state.thyroid_nodules_quantity" with
  | VNone => false
  | q => match py_int q with
         | Some z => Z.eqb z 0
         | None => false
         end
  end.

(** The test made on one element of a [nodules] list. *)
Definition nodule_graded (n : value) : bool :=
  match n with
  | VDict d =>
      nonempty (py_or (py_or (py_or (assoc_get d "ti_rads_score")
                                    (assoc_get d "tirads_score"))
                             (assoc_get d "ti_rads"))
                      (assoc_get d "tirads"))
  | _ => false
  end.

(** The scan of [container.get(tail) or []]: only a list is iterated. *)
Definition nodules_graded (nods : value) : bool :=
  match nods with
  | VList l => existsb nodule_graded l
  | _ => false
  end.

(** One candidate path [(head, tail)] of [_has_per_nodule_tirads]. *)
Definition candidate_graded (state : gmap string value)
    (cand : option string * string) : bool :=
  match cand.1 with
  | Some head =>
      match state_get state head with
      | VDict d => nodules_graded (assoc_get d cand.2)
      | _ => false
      end
  | None => nodules_graded (state_get state cand.2)
  end.

Definition _has_per_nodule_tirads (state : gmap string value) : bool :=
  existsb (candidate_graded state)
    [ (Some "state.thyroid_nodules_detail", "nodules");
      (Some "thyroid_nodules_detail", "nodules");
      (Some "state", "nodules");
      (Some "ultrasound", "nodules");
      (None, "nodules") ].

Definition _TIRADS_ORDER : list (string * Z) :=
  [ ("1", 1); ("2", 2); ("3", 3); ("4A", 4); ("4B", 5); ("4C", 6); ("5", 7);
    ("TR1", 1); ("TR2", 2); ("TR3", 3); ("TR4A", 4); ("TR4B", 5);
    ("TR4C", 6); ("TR5", 7) ]%Z.

Fixpoint order_get (table : list (string * Z)) (key : string) : option Z :=
  match table with
  | [] => None
  | (k, r) :: rest => if String.eqb k key then Some r else order_get rest key
  end.

(** The regular expression of [_rank], applied to an upper-cased,
    stripped string: an optional TI-RADS or TIRADS followed by spaces, an
    optional TR (group 1), spaces, a digit 1 to 5 (group 2), spaces, an
    optional A, B or C (group 3), end of string.  The result is the key
    built from the groups.  No prefix of the pattern can be matched in two ways that both
    extend to a full match, so matching left to right decides it. *)
Definition rank_key (l : list ascii) : option string :=
  let l1 :=
    match strip_prefix (list_ascii_of_string "TI-RADS") l with
    | Some r => skip_spaces r
    | None =>
        match strip_prefix (list_ascii_of_string "TIRADS") l with
        | Some r => skip_spaces r
        | None => l
        end
    end in
  let '(tr, l2) :=
    match strip_prefix (list_ascii_of_string "TR") l1 with
    | Some r => ("TR", r)
    | None => (EmptyString, l1)
    end in
  match skip_spaces l2 with
  | base :: l3 =>
      let n := nat_of_ascii base in
      if ((49 <=? n) && (n <=? 53))%nat then
        match skip_spaces l3 with
        | [] => Some (tr +:+ string_of_list_ascii [base])
        | [c] =>
            let m := nat_of_ascii c in
            if ((65 <=? m) && (m <=? 67))%nat
            then Some (tr +:+ string_of_list_ascii [base; c])
            else None
        | _ => None
        end
      else None
  | [] => None
  end.

(** [_rank] on a string argument. *)
Definition _rank (val : string) : option Z :=
  let s := py_strip (py_upper (list_ascii_of_string val)) in
  match rank_key s with
  | Some key => order_get _TIRADS_ORDER key
  | None => order_get _TIRADS_ORDER (string_of_list_ascii s)
  end.

(** [_rank(str(v)) if v is not None else None]. *)
Definition rank_of (v : value) : option Z :=
  match v with
  | VNone => None
  | _ => _rank (py_str v)
  end.

Definition is_str (v : value) : bool :=
  match v with VStr _ => true | _ => false end.

(** The score/label consistency warnings shared by both gates. *)
Definition consistency_warnings (state : gmap string value) : list string :=
  let score := _get state "state.tirads_score" in
  let label := _get state "state.tirads_label" in
  let r_score := rank_of score in
  let r_label := rank_of label in
  ((if bool_decide (r_score = None) && is_str score
    then [ "Non-standard tirads_score; check format." ] else [])
   ++ (if bool_decide (r_label = None) && is_str label
       then [ "Non-standard tirads_label; check format." ] else [])
   ++ (match r_score, r_label with
       | Some a, Some b =>
           if Z.eqb a b then []
           else [ "TI-RADS label not aligned with score (ranks differ)." ]
       | _, _ => []
       end))%list.

Definition validate_state_for_report (state : gmap string value) : ValidateResult :=
  let missing :=
    map (λ k, "Missing required: " +:+ k)
        (filter (λ k, _present state k = false) REQUIRED_FOR_REPORT) in
  let overall_ok :=
    _present state "state.tirads_score" || _present state "state.tirads_label" in
  let per_nodule_ok := _has_per_nodule_tirads state in
  let evidence_errors :=
    if _is_no_nodule state then []
    else if negb (overall_ok || per_nodule_ok)
         then [ "Need TI-RADS evidence: either overall (state.tirads_*) or per-nodule ti_rads_score." ]
         else [] in
  let branch_warnings :=
    if _is_no_nodule state then
      if negb (_present state "state.thyroid_echo"
               || _present state "state.diffuse_lesion_evaluation_result")
      then [ "No nodule: consider adding gland echo or diffuse evaluation." ]
      else []
    else if negb (overall_ok || per_nodule_ok) then []
         else if per_nodule_ok && negb overall_ok
              then [ "Per-nodule TI-RADS only (no overall grading)." ]
              else [] in
  let mutex_errors :=
    concat (map (λ group,
                   let pres := filter (λ k, _present state k = true) group in
                   if (1 <? length pres)%nat
                   then [ "Mutually exclusive fields present: " +:+ py_repr_strs pres ]
                   else [])
                MUTEX_GROUPS) in
  let errs := (missing ++ evidence_errors ++ mutex_errors)%list in
  let warns :=
    (branch_warnings
     ++ (if _present state "state.tirads_score" && _present state "state.tirads_label"
         then consistency_warnings state else []))%list in
  {| passed := bool_decide (length errs = 0%nat); errors := errs; warnings := warns |}.

Definition validate_node_ready (node : string) (state : gmap string value)
    : ValidateResult :=
  if String.eqb node "VIS_REPORT" then validate_state_for_report state
  else if String.eqb node "TI-RADS" then
    if _is_no_nodule state then
      {| passed := true; errors := [];
         warnings := [ "TI-RADS skipped: no discrete thyroid nodule." ] |}
    else
      let overall_ok :=
        _present state "state.tirads_score" || _present state "state.tirads_label" in
      let per_nodule_ok := _has_per_nodule_tirads state in
      let errs :=
        if negb (overall_ok || per_nodule_ok)
        then [ "Need TI-RADS: overall (state.tirads_*) or per-nodule ti_rads_score." ]
        else [] in
      let warns :=
        ((if negb (overall_ok || per_nodule_ok) then []
          else if per_nodule_ok && negb overall_ok
               then [ "Per-nodule TI-RADS only (no overall grading)." ]
               else [])
         ++ (if overall_ok && _present state "state.tirads_score"
                && _present state "state.tirads_label"
             then consistency_warnings state else []))%list in
      {| passed := bool_decide (length errs = 0%nat); errors := errs; warnings := warns |}
  else {| passed := true; errors := []; warnings := [] |}.

Arguments validate_node_ready : simpl never.

(** ** Actions and results: [engine/types.py]

    An action is a dictionary; each field below is a key that may be
    missing ([None]).  [a_payload], [a_include_nodes], [a_exclude_nodes]
    and [a_fields] are read with [action.get(k, default) or default], so a
    missing key and a [None] value are the same. *)

Record Action := {
  a_type : option string;
  a_node : option string;
  a_policy : option string;
  a_slot : option string;
  a_payload : option (gmap string value);
  a_include_nodes : option (list string);
  a_exclude_nodes : option (list string);
  a_fields : option (list string);
  a_include_reports_fixed : option bool;
}.

Record StepResult := {
  ok : bool;
  updated_state : gmap string value;
  executed_nodes : list string;
  events : list string;
}.

(** [action.get("type") == t]. *)
Definition type_is (action : Action) (t : string) : bool :=
  match a_type action with
  | Some s => String.eqb s t
  | None => false
  end.

(** [payload.get(f, state.get(f, None))]. *)
Definition written_value (payload state : gmap string value) (f : string) : value :=
  match payload !! f with
  | Some v => v
  | None => state_get state f
  end.

(** [state[f] = payload.get(f, state.get(f, None))]. *)
Definition write_field (payload : gmap string value) (f : string)
    (state : gmap string value) : gmap string value :=
  <[f := written_value payload state f]> state.

(** [[n for n in executed_nodes if n not in rm]]. *)
Definition remove_nodes (rm : gset string) (executed : list string) : list string :=
  filter (λ n, n ∉ rm) executed.

(** [set(state.get("_pending_slots", []))]; [None] when building the set
    raises, or when sorting it together with the slot name would. *)
Definition pending_slots (state : gmap string value) : option (gset string) :=
  match state !! "_pending_slots" with
  | None => Some ∅
  | Some (VList l) =>
      list_to_set <$>
        mapM (λ x, match x with VStr s => Some s | _ => None end) l
  | Some (VStr s) =>
      Some (list_to_set (map (λ c, string_of_list_ascii [c]) (list_ascii_of_string s)))
  | Some (VDict d) => Some (list_to_set d.*1)
  | Some _ => None
  end.

Definition py_bool (b : bool) : string := if b then "True" else "False".

(** The four branches of [Simulator.step]. *)

Definition step_execute (sim : Simulator) (state : gmap string value)
    (executed : list string) (action : Action) : option StepResult :=
  node ← a_node action;
  let ws := _write_set sim node in
  let payload := default ∅ (a_payload action) in
  Some {| ok := true;
          updated_state := set_fold (write_field payload) state ws;
          executed_nodes :=
            if decide (node ∈ executed) then executed else (executed ++ [node])%list;
          events := [ "EXECUTE " +:+ node +:+ ": wrote " +:+ pretty (size ws)
                      +:+ " fields" ] |}.

Definition step_rollback (sim : Simulator) (state : gmap string value)
    (executed : list string) (action : Action) : option StepResult :=
  node ← a_node action;
  let policy := default "full_downstream" (a_policy action) in
  if String.eqb policy "aggregate_only" then
    let fields := _clears_aggregate_only sim node in
    let rm_nodes :=
      {[node]} ∪ filter (λ d, d ∈ _aggregate_nodes sim) (_downstream_nodes sim node) in
    Some {| ok := true;
            updated_state := _apply_clear state fields;
            executed_nodes := remove_nodes rm_nodes executed;
            events := [ "ROLLBACK " +:+ node +:+ " aggregate_only: cleared "
                        +:+ pretty (size fields) +:+ " fields; removed nodes="
                        +:+ py_repr_strs (sorted_set rm_nodes) ] |}
  else if String.eqb policy "full_downstream" then
    let fields := _clears_full_downstream sim node in
    let affected_nodes := {[node]} ∪ _downstream_nodes sim node in
    Some {| ok := true;
            updated_state := _apply_clear state fields;
            executed_nodes := remove_nodes affected_nodes executed;
            events := [ "ROLLBACK " +:+ node +:+ " full_downstream: cleared "
                        +:+ pretty (size fields) +:+ " fields; removed nodes="
                        +:+ py_repr_strs (sorted_set affected_nodes) ] |}
  else if String.eqb policy "custom" then
    let include_nodes : gset string := list_to_set (default [] (a_include_nodes action)) in
    let exclude_nodes : gset string := list_to_set (default [] (a_exclude_nodes action)) in
    let fields0 : gset string := list_to_set (default [] (a_fields action)) in
    let fields1 :=
      set_fold (λ n fields, produces_of sim n ∪ fields) fields0 include_nodes in
    let fields :=
      if default true (a_include_reports_fixed action)
      then fields1 ∪ _reports_fixed sim else fields1 in
    Some {| ok := true;
            updated_state := _apply_clear state fields;
            executed_nodes :=
              if decide (include_nodes = ∅) then executed
              else remove_nodes include_nodes executed;
            events := [ "ROLLBACK " +:+ node +:+ " custom: cleared "
                        +:+ pretty (size fields) +:+ " fields; include_nodes="
                        +:+ py_repr_strs (sorted_set include_nodes)
                        +:+ " exclude_nodes="
                        +:+ py_repr_strs (sorted_set exclude_nodes) ] |}
  else
    Some {| ok := false; updated_state := state; executed_nodes := executed;
            events := [ "Unknown policy " +:+ policy ] |}.

Definition step_clarify (state : gmap string value)
    (executed : list string) (action : Action) : option StepResult :=
  slot ← a_slot action;
  pending ← pending_slots state;
  Some {| ok := true;
          updated_state :=
            <["_pending_slots" := VList (map VStr (sorted_set ({[slot]} ∪ pending)))]> state;
          executed_nodes := executed;
          events := [ "CLARIFY " +:+ slot ] |}.

Definition step_generate_report (state : gmap string value)
    (executed : list string) : option StepResult :=
  let tri := validate_node_ready "TI-RADS" state in
  let vis := validate_node_ready "VIS_REPORT" state in
  let pass := passed tri && passed vis in
  let errs := (map (λ e, "TI-RADS: " +:+ e) (errors tri)
               ++ map (λ e, "VIS_REPORT: " +:+ e) (errors vis))%list in
  let warns := (map (λ w, "TI-RADS: " +:+ w) (warnings tri)
                ++ map (λ w, "VIS_REPORT: " +:+ w) (warnings vis))%list in
  Some {| ok := pass;
          updated_state := state;
          executed_nodes := executed;
          events := ([ "GENERATE_REPORT validated: passed=" +:+ py_bool pass ]
                     ++ map (λ m, "ERROR: " +:+ m) errs
                     ++ map (λ m, "WARNING: " +:+ m) warns)%list |}.

(** [Simulator.step]. *)
Definition step (sim : Simulator) (state : gmap string value)
    (executed : list string) (action : Action) : option StepResult :=
  if type_is action "EXECUTE" then step_execute sim state executed action
  else if type_is action "ROLLBACK" then step_rollback sim state executed action
  else if type_is action "CLARIFY" then step_clarify state executed action
  else if type_is action "GENERATE_REPORT" then step_generate_report state executed
  else Some {| ok := false; updated_state := state; executed_nodes := executed;
               events := [ "Unknown action type" ] |}.

(** Actions as a caller writes them. *)

Definition execute_action (node : string) (payload : option (gmap string value))
    : Action :=
  {| a_type := Some "EXECUTE"; a_node := Some node; a_policy := None;
     a_slot := None; a_payload := payload; a_include_nodes := None;
     a_exclude_nodes := None; a_fields := None;
     a_include_reports_fixed := None |}.

Definition rollback_action (node : string) (policy : option string) : Action :=
  {| a_type := Some "ROLLBACK"; a_node := Some node; a_policy := policy;
     a_slot := None; a_payload := None; a_include_nodes := None;
     a_exclude_nodes := None; a_fields := None;
     a_include_reports_fixed := None |}.

Definition custom_rollback (node : string)
    (include_nodes exclude_nodes fields : option (list string))
    (include_reports_fixed : option bool) : Action :=
  {| a_type := Some "ROLLBACK"; a_node := Some node; a_policy := Some "custom";
     a_slot := None; a_payload := None; a_include_nodes := include_nodes;
     a_exclude_nodes := exclude_nodes; a_fields := fields;
     a_include_reports_fixed := include_reports_fixed |}.

Definition generate_report_action : Action :=
  {| a_type := Some "GENERATE_REPORT"; a_node := None; a_policy := None;
     a_slot := None; a_payload := None; a_include_nodes := None;
     a_exclude_nodes := None; a_fields := None;
     a_include_reports_fixed := None |}.

Definition clarify_action (slot : string) : Action :=
  {| a_type := Some "CLARIFY"; a_node := None; a_policy := None;
     a_slot := Some slot; a_payload := None; a_include_nodes := None;
     a_exclude_nodes := None; a_fields := None;
     a_include_reports_fixed := None |}.

(** [dict(action, policy=p)]: the same action with another policy. *)
Definition with_policy (action : Action) (p : option string) : Action :=
  {| a_type := a_type action; a_node := a_node action; a_policy := p;
     a_slot := a_slot action; a_payload := a_payload action;
     a_include_nodes := a_include_nodes action;
     a_exclude_nodes := a_exclude_nodes action; a_fields := a_fields action;
     a_include_reports_fixed := a_include_reports_fixed action |}.

(** [dict(action, exclude_nodes=e)]. *)
Definition with_exclude_nodes (action : Action) (e : option (list string)) : Action :=
  {| a_type := a_type action; a_node := a_node action; a_policy := a_policy action;
     a_slot := a_slot action; a_payload := a_payload action;
     a_include_nodes := a_include_nodes action;
     a_exclude_nodes := e; a_fields := a_fields action;
     a_include_reports_fixed := a_include_reports_fixed action |}.

(** The lookup as the specification words it: the canonical field when
    it is present, else the first alternate name that is present, else
    absent; present means neither absent nor an empty string, list or
    map.  Compared with [_get] below. *)
Definition get_by_presence (table : list (string * list string))
    (state : gmap string value) (key : string) : value :=
  if nonempty (state_get state key) then state_get state key
  else match filter (λ alt, nonempty (state_get state alt) = true)
                    (aliases_in table key) with
       | alt :: _ => state_get state alt
       | [] => VNone
       end.

(** ** Configuration checks: [scripts/validate_rules.py]

    The script works on the same parsed configuration as the simulator:
    [produces_map] is built like [Simulator._produces], [edges_map] is
    the [edges] mapping, and the set of defined nodes is the key set of
    the registry. *)

(** The [while dq:] loop of [build_reachability] for one source, bounded
    by [fuel] iterations.  The deque is a list with its left end at the
    head; [reach[src]] receives exactly the nodes added to [seen]. *)
Fixpoint reach_loop (fuel : nat) (g : gmap string (list string))
    (seen : gset string) (dq : list string) : option (gset string) :=
  match dq with
  | [] => Some seen
  | u :: rest =>
      match fuel with
      | O => None
      | S fuel' =>
          if decide (u ∈ seen) then reach_loop fuel' g seen rest
          else
            let seen' := {[u]} ∪ seen in
            reach_loop fuel' g seen'
              (rest ++ filter (λ v, v ∉ seen') (successors g u))%list
      end
  end.

(** The number of edges leaving the nodes outside [seen]. *)
Definition pending_edges (g : gmap string (list string)) (seen : gset string) : nat :=
  map_fold (λ k l acc, ((if decide (k ∈ seen) then 0 else length l) + acc)%nat)
           0%nat g.

(** Every node enters the deque at most once per edge that leads to it,
    so the loop body runs at most once per initial entry and once per
    edge. *)
Definition reach_fuel (g : gmap string (list string)) (src : string) : nat :=
  (length (successors g src) + pending_edges g ∅)%nat.

(** The set [reach[src]] that [build_reachability] computes for [src]. *)
Definition reach_from (g : gmap string (list string)) (src : string) : gset string :=
  default ∅ (reach_loop (reach_fuel g src) g ∅ (successors g src)).

(** [build_reachability(nodes, edges_map)]. *)
Definition build_reachability (nodes : gset string) (g : gmap string (list string))
    : gmap string (gset string) :=
  set_to_map (λ src, (src, reach_from g src)) nodes.

(** [compute_full_downstream_required]. *)
Definition compute_full_downstream_required (node : string)
    (reach : gmap string (gset string)) (produces_map : gmap string (gset string))
    (reports_fixed : gset string) : gset string :=
  set_fold (λ d s, default ∅ (produces_map !! d) ∪ s)
           (default ∅ (produces_map !! node)) (default ∅ (reach !! node))
    ∪ reports_fixed.

(** [compute_aggregate_only_required]. *)
Definition compute_aggregate_only_required (node : string)
    (reach : gmap string (gset string)) (produces_map : gmap string (gset string))
    (aggregate_nodes reports_fixed : gset string) : gset string :=
  set_fold (λ d s, if decide (d ∈ aggregate_nodes)
                   then default ∅ (produces_map !! d) ∪ s else s)
           (default ∅ (produces_map !! node)) (default ∅ (reach !! node))
    ∪ reports_fixed.

(** A rule as written in [rollback_rules.yaml]: the [clears] list and the
    legacy [reset_set] list, each missing or null when [None]. *)
Record RawRule := {
  raw_clears : option (list string);
  raw_reset_set : option (list string);
}.

(** The rule map of [normalize_rules_clears]: [clears] when it is given,
    else the legacy [reset_set], as a set. *)
Definition normalize_rules_clears (rules : gmap string RawRule)
    : gmap string (gset string) :=
  (λ spec, match raw_clears spec with
           | Some l => list_to_set l
           | None => list_to_set (default [] (raw_reset_set spec))
           end) <$> rules.

(** The entry the simulator reads from the same rule: it looks at
    [clears] only. *)
Definition simulator_rule (spec : RawRule) : RuleEntry :=
  {| clears := raw_clears spec |}.

(** The [missing_full] table built by check (b) of [main]: for each
    defined node, the required fields its rule does not provide, when
    there are any. *)
Definition missing_full (nodes : gset string) (reach : gmap string (gset string))
    (produces_map : gmap string (gset string)) (reports_fixed : gset string)
    (clears_map : gmap string (gset string)) : gmap string (list string) :=
  set_fold (λ n acc,
              let required :=
                compute_full_downstream_required n reach produces_map reports_fixed in
              let provided := default ∅ (clears_map !! n) in
              let miss := required ∖ provided in
              if decide (miss = ∅) then acc else <[n := sorted_set miss]> acc)
           ∅ nodes.

(** The invariant of the [while dq:] loop of [build_reachability]: what is
    seen or queued is reachable from [src]; the successors of [src] and of
    every seen node are seen or queued. *)
Definition reach_inv (g : gmap string (list string)) (src : string)
    (seen : gset string) (dq : list string) : Prop :=
  (∀ x, x ∈ seen → reachable g src x)
  ∧ (∀ x, x ∈ dq → reachable g src x)
  ∧ (∀ y, edge g src y → y ∈ seen ∨ y ∈ dq)
  ∧ (∀ x y, x ∈ seen → edge g x y → y ∈ seen ∨ y ∈ dq).

(** The registry read from [nodes.yaml]: node -> its [produces] list (a
    missing or null list is the empty list). *)

(** One pass of the inner [for f in p] loop of [collect_field_universe]:
    an error line when the field already has a producer, then the field
    is given to [node]. *)
Definition note_field (node f : string) (acc : gmap string string * list string)
    : gmap string string * list string :=
  (<[f := node]> acc.1,
   match acc.1 !! f with
   | Some owner =>
       (acc.2 ++ [ "❌ Field '" +:+ f +:+ "' produced by multiple nodes: "
                   +:+ owner +:+ " and " +:+ node ])%list
   | None => acc.2
   end).

(** The body of the outer loop for one node; [p] is a set. *)
Definition collect_node (node : string) (produces : list string)
    (acc : gmap string string * list string) : gmap string string * list string :=
  set_fold (note_field node) acc (list_to_set produces : gset string).

(** [collect_field_universe]: [None] when it prints the errors and exits,
    else the produces map, the producer of each field and the universe of
    fields.  The produces map and the universe do not depend on the pass
    that builds [producer_of] and are written directly. *)
Definition collect_field_universe (registry : gmap string (list string))
    : option (gmap string (gset string) * gmap string string * gset string) :=
  let acc := map_fold collect_node (∅, []) registry in
  match acc.2 with
  | [] => Some (list_to_set <$> registry, acc.1,
                ⋃ ((λ kv, list_to_set kv.2) <$> map_to_list registry))
  | _ :: _ => None
  end.

(** Every field has at most one producing node. *)
Definition unique_owner (registry : gmap string (list string)) : Prop :=
  ∀ f n1 n2 l1 l2,
    registry !! n1 = Some l1 → registry !! n2 = Some l2 →
    f ∈ l1 → f ∈ l2 → n1 = n2.

(** [in_deg[b] = in_deg.get(b, 0) + 1]. *)
Definition count_edge (d : gmap string Z) (b : string) : gmap string Z :=
  <[b := (default 0 (d !! b) + 1)%Z]> d.

(** The in-degree table of [topo_check_acyclic] before the queue is
    built: zero for every node, plus one per edge into a target. *)
Definition initial_in_deg (nodes : gset string) (g : gmap string (list string))
    : gmap string Z :=
  map_fold (λ _ outs d, foldl count_edge d outs)
           (set_to_map (λ n, (n, 0%Z)) nodes) g.

(** One pass of the inner [for v in edges_map.get(u, [])] loop:
    [in_deg[v] -= 1] (a [KeyError], here [None], when [v] has no entry),
    then [v] joins the queue if its count is zero. *)
Definition relax (acc : option (gmap string Z * list string)) (v : string)
    : option (gmap string Z * list string) :=
  match acc with
  | Some (d, q) =>
      match d !! v with
      | Some c =>
          Some (<[v := (c - 1)%Z]> d,
                if decide ((c - 1)%Z = 0%Z) then (q ++ [v])%list else q)
      | None => None
      end
  | None => None
  end.

(** The [while q:] loop of [topo_check_acyclic], bounded by [fuel]
    iterations; the deque is a list with its left end at the head.
    [None] when the fuel runs out or a [KeyError] is raised. *)
Fixpoint topo_loop (fuel : nat) (g : gmap string (list string))
    (d : gmap string Z) (q order : list string) : option (list string) :=
  match q with
  | [] => Some order
  | u :: rest =>
      match fuel with
      | O => None
      | S fuel' =>
          match foldl relax (Some (d, rest)) (successors g u) with
          | Some (d', q') => topo_loop fuel' g d' q' (order ++ [u])%list
          | None => None
          end
      end
  end.

(** [topo_check_acyclic], from the queue [q0] of the entries with count
    zero.  Python lists them in the insertion order of the table, which
    starts with the nodes in the iteration order of a set; [q0] stands
    for that list. *)
Definition topo_check_from (q0 : list string) (nodes : gset string)
    (g : gmap string (list string)) : option (bool * list string) :=
  match topo_loop (size (dom (initial_in_deg nodes g))) g
                  (initial_in_deg nodes g) q0 [] with
  | Some order => Some (bool_decide (length order = size nodes), order)
  | None => None
  end.

(** [topo_check_acyclic] with the zero entries taken in the order in
    which the table lists its keys. *)
Definition topo_check_acyclic (nodes : gset string)
    (g : gmap string (list string)) : option (bool * list string) :=
  topo_check_from
    (filter (λ n, initial_in_deg nodes g !! n = Some 0%Z)
            (map_to_list (initial_in_deg nodes g)).*1)
    nodes g.

(** The number of occurrences of [v] in a successor list. *)
Definition occurrences (v : string) (l : list string) : Z :=
  Z.of_nat (length (filter (λ x, x = v) l)).

(** The number of edges into [v] from the nodes outside [done]. *)
Definition in_edges (g : gmap string (list string)) (done : gset string)
    (v : string) : Z :=
  map_fold (λ u l acc, ((if decide (u ∈ done) then 0 else occurrences v l) + acc)%Z)
           0%Z g.

(** The invariant of the [while q:] loop of [topo_check_acyclic]: every
    edge target has a count; each count is the number of edges from nodes
    not yet output; queued and output nodes are distinct and have count
    zero; every node is output after all its predecessors. *)
Definition topo_inv (g : gmap string (list string)) (d : gmap string Z)
    (q order : list string) : Prop :=
  (∀ v, v ∈ edge_targets g → is_Some (d !! v))
  ∧ (∀ v c, d !! v = Some c → c = in_edges g (list_to_set order) v)
  ∧ NoDup (order ++ q)
  ∧ (∀ v, v ∈ (order ++ q)%list → d !! v = Some 0%Z)
  ∧ (∀ i v, order !! i = Some v →
            ∀ u, edge g u v → ∃ j, (j < i)%nat ∧ order !! j = Some u).

(** ** Sample configurations *)

(** Three nodes on a cycle X -> Y -> Z -> X with a chord X -> Z; Z is an
    aggregate node; no rule has a [clears] list. *)
Definition cyclic_sim : Simulator :=
  {| node_graph := {[ "X" := ["Y"; "Z"]; "Y" := ["Z"]; "Z" := ["X"] ]};
     _produces := {[ "X" := {["a"; "b"]}; "Y" := {["c"]}; "Z" := {["d"]} ]};
     _reports_fixed := {["report"]};
     _aggregate_nodes := {["Z"]};
     _rule_clears := ∅ |}.

(** One node whose rule lists a field other than the one it produces. *)
Definition rule_gap_sim : Simulator :=
  {| node_graph := ∅;
     _produces := {[ "A" := {["a"]} ]};
     _reports_fixed := {["report"]};
     _aggregate_nodes := ∅;
     _rule_clears := {[ "A" := {| clears := Some ["x"] |} ]} |}.

(** One grading node that produces the canonical overall score. *)
Definition grading_sim : Simulator :=
  {| node_graph := ∅;
     _produces := {[ "TI-RADS" := {[ "state.tirads_score" ]} ]};
     _reports_fixed := ∅;
     _aggregate_nodes := ∅;
     _rule_clears := ∅ |}.

(** A chain A -> B whose rules list everything the script requires; the
    rule of B is written with the legacy [reset_set] key. *)
Definition covered_rules : gmap string RawRule :=
  {[ "A" := {| raw_clears := Some ["a"; "b"; "report"]; raw_reset_set := None |};
     "B" := {| raw_clears := None; raw_reset_set := Some ["b"; "report"] |} ]}.

Definition covered_sim : Simulator :=
  {| node_graph := {[ "A" := ["B"] ]};
     _produces := {[ "A" := {["a"]}; "B" := {["b"]} ]};
     _reports_fixed := {["report"]};
     _aggregate_nodes := ∅;
     _rule_clears := simulator_rule <$> covered_rules |}.

(** A diamond A -> B, A -> C, B -> D, C -> D with the edge A -> B
    listed twice. *)
Definition diamond_graph : gmap string (list string) :=
  {[ "A" := ["B"; "C"; "B"]; "B" := ["D"]; "C" := ["D"] ]}.

(** * Properties *)

(** ** The embedding on concrete inputs *)

Example rank_plain : _rank "4b" = Some 5%Z.
Proof. reflexivity. Qed.

Example rank_prefixed : _rank " ti-rads TR 4 C " = Some 6%Z.
Proof. reflexivity. Qed.

Example rank_tier_without_letter : _rank "TR4" = None.
Proof. reflexivity. Qed.

Example parse_int_underscore : parse_int " -0_0 " = Some 0%Z.
Proof. reflexivity. Qed.

Example parse_int_trailing_underscore : parse_int "1_" = None.
Proof. reflexivity. Qed.

Example repr_nested :
  py_repr (VList [VStr "it's"; VInt (-3); VDict [("k", VNone)]])
  = String (ascii_of_nat 91)
      (String quote2 ("it's" +:+ String quote2 ", -3, {'k': None}]")).
Proof. reflexivity. Qed.

Example no_nodule_from_alias :
  _is_no_nodule {[ "thyroid_nodules_quantity" := VStr "0" ]} = true.
Proof. vm_compute. reflexivity. Qed.

Example grading_gate_label_only :
  validate_node_ready "TI-RADS" {[ "state.tirads_label" := VStr "TR5" ]}
  = {| passed := true; errors := []; warnings := [] |}.
Proof. vm_compute. reflexivity. Qed.

Example report_gate_empty_state :
  errors (validate_node_ready "VIS_REPORT" ∅)
  = [ "Missing required: state.conclusion_text";
      "Missing required: state.recommendation";
      "Need TI-RADS evidence: either overall (state.tirads_*) or per-nodule ti_rads_score." ].
Proof. vm_compute. reflexivity. Qed.

Example downstream_on_cycle :
  elements (_downstream_nodes cyclic_sim "Y") = elements ({[ "Z"; "X" ]} : gset string).
Proof. vm_compute. reflexivity. Qed.

Example clarify_sorted :
  updated_state <$> step cyclic_sim {[ "_pending_slots" := VList [VStr "b"] ]} []
    {| a_type := Some "CLARIFY"; a_node := None; a_policy := None;
       a_slot := Some "a"; a_payload := None; a_include_nodes := None;
       a_exclude_nodes := None; a_fields := None;
       a_include_reports_fixed := None |}
  = Some {[ "_pending_slots" := VList [VStr "a"; VStr "b"] ]}.
Proof. vm_compute. reflexivity. Qed.

Example custom_rollback_event :
  events <$> step cyclic_sim ∅ ["X"]
    (custom_rollback "X" (Some ["Y"]) (Some ["Z"]) (Some ["a"]) (Some false))
  = Some [ "ROLLBACK X custom: cleared 2 fields; include_nodes=['Y'] exclude_nodes=['Z']" ].
Proof. vm_compute. reflexivity. Qed.

(** ** The traversal of [_downstream_nodes] *)

Section Traversal.
Variable g : gmap string (list string).

Lemma successors_targets cur x :
  x ∈ successors g cur → x ∈ edge_targets g.
Proof.
  unfold successors, edge_targets. intros Hx.
  destruct (g !! cur) as [l|] eqn:Hl; simpl in Hx; [|by apply elem_of_nil in Hx].
  apply elem_of_union_list. exists (list_to_set l). split.
  - apply list_elem_of_fmap. exists (cur, l). split; [done|].
    by apply elem_of_map_to_list.
  - by apply elem_of_list_to_set.
Qed.

Lemma foldl_visit_seen l seen q :
  (foldl visit (seen, q) l).1 = seen ∪ list_to_set l.
Proof.
  revert seen q. induction l as [|x l IH]; intros seen q; simpl.
  - set_solver.
  - unfold visit at 2. simpl. case_decide; rewrite IH; set_solver.
Qed.

Lemma foldl_visit_queue l seen q x :
  x ∈ (foldl visit (seen, q) l).2 ↔ x ∈ q ∨ (x ∈ l ∧ x ∉ seen).
Proof.
  revert seen q. induction l as [|y l IH]; intros seen q; simpl.
  - set_solver.
  - unfold visit at 2. simpl. case_decide; rewrite IH.
    + set_solver.
    + destruct (decide (x = y)) as [->|]; set_solver.
Qed.

Lemma size_remove_one (U seen : gset string) (y : string) :
  y ∉ seen → y ∈ U → size (U ∖ seen) = S (size (U ∖ ({[y]} ∪ seen))).
Proof.
  intros Hy HU.
  assert (U ∖ seen = {[y]} ∪ U ∖ ({[y]} ∪ seen)) as ->.
  { apply set_eq. intros x.
    rewrite elem_of_union, !elem_of_difference, elem_of_union, elem_of_singleton.
    destruct (decide (x = y)) as [->|]; naive_solver. }
  rewrite (size_union (C:=gset string) {[y]} (U ∖ ({[y]} ∪ seen))).
  - by rewrite size_singleton.
  - intros x. rewrite elem_of_singleton, elem_of_difference, elem_of_union,
      elem_of_singleton. naive_solver.
Qed.

Lemma foldl_visit_measure (U : gset string) l seen q :
  (∀ x, x ∈ l → x ∈ U) →
  size (U ∖ (foldl visit (seen, q) l).1) + length (foldl visit (seen, q) l).2
  = size (U ∖ seen) + length q.
Proof.
  revert seen q. induction l as [|y l IH]; intros seen q HU; simpl; [done|].
  unfold visit at 2 4. simpl. case_decide as Hy.
  - apply IH. intros x Hx. apply HU. by right.
  - rewrite IH; [|intros x Hx; apply HU; by right]. simpl.
    rewrite (size_remove_one U seen y Hy); [lia|]. apply HU. by left.
Qed.

(** The loop ends within the fuel whenever the fuel covers the nodes
    not yet seen plus the length of the work list. *)
Lemma downstream_loop_terminates fuel seen q :
  (size (edge_targets g ∖ seen) + length q ≤ fuel)%nat →
  is_Some (downstream_loop fuel g seen q).
Proof.
  revert seen q. induction fuel as [|fuel IH]; intros seen q Hm.
  - destruct q as [|cur rest]; simpl in *; [eauto|lia].
  - destruct q as [|cur rest]; simpl in *; [eauto|].
    apply IH.
    rewrite foldl_visit_measure by (intros x; apply successors_targets).
    lia.
Qed.

Lemma downstream_loop_more_fuel fuel fuel' seen q r :
  downstream_loop fuel g seen q = Some r → (fuel ≤ fuel')%nat →
  downstream_loop fuel' g seen q = Some r.
Proof.
  revert fuel' seen q. induction fuel as [|fuel IH]; intros fuel' seen q Hr Hle.
  - destruct q; simpl in *; [|done]. by destruct fuel'.
  - destruct q as [|cur rest]; simpl in *; [by destruct fuel'|].
    destruct fuel' as [|fuel']; [lia|]. simpl. apply IH; [done|lia].
Qed.

Lemma traversal_inv_init node : traversal_inv g node ∅ [node].
Proof.
  split; [set_solver|]. split.
  - intros x Hx. left. by apply list_elem_of_singleton in Hx.
  - intros x [->|Hx]; [left; by apply list_elem_of_singleton|set_solver].
Qed.

Lemma traversal_inv_step node seen cur rest :
  traversal_inv g node seen (cur :: rest) →
  traversal_inv g node (foldl visit (seen, rest) (successors g cur)).1
                     (foldl visit (seen, rest) (successors g cur)).2.
Proof.
  intros (Hreach & Hq & Hdone). split; [|split].
  - intros x. rewrite foldl_visit_seen, elem_of_union, elem_of_list_to_set.
    intros [Hx|Hx]; [by apply Hreach|].
    destruct (Hq cur) as [->|Hcur]; [by left|by apply tc_once|].
    eapply tc_r; [by apply Hreach|done].
  - intros x. rewrite foldl_visit_queue, foldl_visit_seen, elem_of_union,
      elem_of_list_to_set.
    intros [Hx|[Hx _]]; [|by right; right].
    destruct (Hq x) as [->|?]; [by right|by left|by right; left].
  - intros x Hx. rewrite foldl_visit_queue.
    assert (x ∈ (foldl visit (seen, rest) (successors g cur)).1 ∖ seen
            ∨ (x = node ∨ x ∈ seen)) as [Hnew|Hold].
    { destruct Hx as [->|Hx]; [by right; left|].
      destruct (decide (x ∈ seen)); [by right; right|left].
      by apply elem_of_difference. }
    + left. right. revert Hnew.
      rewrite foldl_visit_seen, elem_of_difference, elem_of_union,
        elem_of_list_to_set. naive_solver.
    + destruct (Hdone x Hold) as [Hwait|Hclosed].
      * apply elem_of_cons in Hwait as [->|Hwait]; [|by left; left].
        right. intros y Hy. rewrite foldl_visit_seen, elem_of_union,
          elem_of_list_to_set. by right.
      * right. intros y Hy. rewrite foldl_visit_seen, elem_of_union.
        left. by apply Hclosed.
Qed.

(** With an empty work list the seen set is exactly what is reachable. *)
Lemma traversal_inv_done node seen x :
  traversal_inv g node seen [] → x ∈ seen ↔ reachable g node x.
Proof.
  intros (Hreach & _ & Hdone). split; [apply Hreach|].
  assert (∀ a, a = node ∨ a ∈ seen → ∀ b, edge g a b → b ∈ seen) as Hcl.
  { intros a Ha. destruct (Hdone a Ha) as [Hw|Hc]; [|done].
    by apply elem_of_nil in Hw. }
  assert (∀ a b, reachable g a b → a = node ∨ a ∈ seen → b ∈ seen) as Htc.
  { intros a b Hab. induction Hab as [a b Hab|a b c Hab _ IHbc]; intros Ha.
    - by apply (Hcl a).
    - apply IHbc. right. by apply (Hcl a). }
  intros Hx. apply (Htc node x Hx). by left.
Qed.

Lemma downstream_loop_reachable node fuel seen q r :
  traversal_inv g node seen q →
  downstream_loop fuel g seen q = Some r →
  ∀ x, x ∈ r ↔ reachable g node x.
Proof.
  revert seen q. induction fuel as [|fuel IH]; intros seen q Hinv Hr x;
    destruct q as [|cur rest]; simpl in Hr; try done.
  - injection Hr as <-. by apply traversal_inv_done.
  - injection Hr as <-. by apply traversal_inv_done.
  - eapply IH; [|exact Hr]. by apply traversal_inv_step.
Qed.

(** The fuel [downstream_fuel] is enough, and so is any larger one. *)
Lemma downstream_run_enough node fuel :
  (downstream_fuel g ≤ fuel)%nat →
  ∃ r, downstream_run fuel g node = Some r
       ∧ downstream_run (downstream_fuel g) g node = Some r
       ∧ ∀ x, x ∈ r ↔ reachable g node x ∧ x ≠ node.
Proof.
  intros Hfuel.
  destruct (downstream_loop_terminates (downstream_fuel g) ∅ [node]) as [seen Hseen].
  { unfold downstream_fuel. simpl.
    assert (edge_targets g ∖ ∅ = edge_targets g) as -> by set_solver. lia. }
  exists (seen ∖ {[node]}). unfold downstream_run.
  rewrite (downstream_loop_more_fuel _ _ _ _ _ Hseen Hfuel), Hseen.
  split; [done|]. split; [done|]. intros x.
  rewrite elem_of_difference, elem_of_singleton.
  by rewrite (downstream_loop_reachable node _ _ _ _ (traversal_inv_init node) Hseen x).
Qed.
End Traversal.

Lemma elem_of_downstream_nodes sim node x :
  x ∈ _downstream_nodes sim node ↔ reachable (node_graph sim) node x ∧ x ≠ node.
Proof.
  unfold _downstream_nodes.
  destruct (downstream_run_enough (node_graph sim) node
              (downstream_fuel (node_graph sim))) as (r & Hr & _ & Hspec); [done|].
  rewrite Hr. simpl. apply Hspec.
Qed.

(** ** Folds over sets *)

(** A fold whose step adds the fields [G n] collects [G] over the set. *)
Lemma set_fold_collect (fstep : string → gset string → gset string)
    (G : string → gset string) (b : gset string) (X : gset string) (f : string) :
  (∀ n acc x, x ∈ fstep n acc ↔ x ∈ G n ∨ x ∈ acc) →
  f ∈ set_fold fstep b X ↔ f ∈ b ∨ ∃ n, n ∈ X ∧ f ∈ G n.
Proof.
  intros Hstep.
  apply (set_fold_ind_L
           (λ r (Y : gset string), f ∈ r ↔ f ∈ b ∨ ∃ n, n ∈ Y ∧ f ∈ G n)
           fstep b).
  - set_solver.
  - intros n Y r Hn IH. rewrite Hstep, IH. set_solver.
Qed.

Lemma lookup_apply_clear (state : gmap string value) (fields : gset string) k :
  _apply_clear state fields !! k = if decide (k ∈ fields) then None else state !! k.
Proof.
  unfold _apply_clear.
  pose (P := λ (r : gmap string value) (Y : gset string),
               r !! k = if decide (k ∈ Y) then None else state !! k).
  change (P (set_fold (λ f st, delete f st) state fields) fields).
  apply set_fold_ind_L; unfold P.
  - by rewrite decide_False by set_solver.
  - intros f Y r Hf IH. destruct (decide (k = f)) as [->|Hne].
    + rewrite lookup_delete_eq. by rewrite decide_True by set_solver.
    + rewrite lookup_delete_ne by done. rewrite IH.
      destruct (decide (k ∈ Y)).
      * by rewrite decide_True by set_solver.
      * by rewrite decide_False by set_solver.
Qed.

Lemma lookup_write_fields (payload state : gmap string value) (ws : gset string) k :
  set_fold (write_field payload) state ws !! k
  = if decide (k ∈ ws) then Some (written_value payload state k) else state !! k.
Proof.
  pose (P := λ (r : gmap string value) (Y : gset string),
               r !! k = if decide (k ∈ Y)
                        then Some (written_value payload state k)
                        else state !! k).
  change (P (set_fold (write_field payload) state ws) ws).
  apply set_fold_ind_L; unfold P.
  - by rewrite decide_False by set_solver.
  - intros f Y r Hf IH. unfold write_field.
    destruct (decide (k = f)) as [->|Hne].
    + rewrite lookup_insert_eq. rewrite decide_True by set_solver.
      rewrite decide_False in IH by done.
      unfold written_value, state_get. by rewrite IH.
    + rewrite lookup_insert_ne by done. rewrite IH.
      destruct (decide (k ∈ Y)).
      * by rewrite decide_True by set_solver.
      * by rewrite decide_False by set_solver.
Qed.

(** ** Graph closure *)

(** C9: on every graph, cyclic or not, the loop of [_downstream_nodes]
    ends within [downstream_fuel] iterations (and gives the same result
    with any larger bound); the result is the value of
    [_downstream_nodes] and never holds the start node. *)
Theorem downstream_nodes_terminates sim node fuel :
  (downstream_fuel (node_graph sim) ≤ fuel)%nat →
  ∃ r, downstream_run fuel (node_graph sim) node = Some r
       ∧ _downstream_nodes sim node = r
       ∧ node ∉ r.
Proof.
  intros Hfuel.
  destruct (downstream_run_enough (node_graph sim) node fuel Hfuel)
    as (r & Hr & Hr0 & Hspec).
  exists r. split; [done|]. split.
  - unfold _downstream_nodes. by rewrite Hr0.
  - rewrite Hspec. naive_solver.
Qed.

Lemma downstream_nodes_terminates_witness :
  (downstream_fuel (node_graph cyclic_sim) ≤ 4)%nat
  ∧ ∃ r, downstream_run 4 (node_graph cyclic_sim) "X" = Some r
         ∧ _downstream_nodes cyclic_sim "X" = r
         ∧ "X" ∉ r.
Proof.
  split; [vm_compute; lia|].
  apply (downstream_nodes_terminates cyclic_sim "X" 4). vm_compute. lia.
Defined.

(** Membership in the clear set of [full_downstream]. *)
Lemma elem_of_clears_full_downstream sim node f :
  f ∈ _clears_full_downstream sim node
  ↔ (∃ n, (n = node ∨ n ∈ _downstream_nodes sim node) ∧ f ∈ clears_of_target sim n)
    ∨ f ∈ _reports_fixed sim.
Proof.
  unfold _clears_full_downstream. rewrite elem_of_union.
  rewrite (set_fold_collect _ (clears_of_target sim)) by set_solver.
  set_solver.
Qed.

(** Membership in the clear set of [aggregate_only]. *)
Lemma elem_of_clears_aggregate_only sim node f :
  f ∈ _clears_aggregate_only sim node
  ↔ f ∈ produces_of sim node
    ∨ (∃ d, d ∈ _downstream_nodes sim node ∧ d ∈ _aggregate_nodes sim
            ∧ f ∈ produces_of sim d)
    ∨ f ∈ _reports_fixed sim.
Proof.
  unfold _clears_aggregate_only. rewrite elem_of_union.
  rewrite (set_fold_collect _
             (λ d, if decide (d ∈ _aggregate_nodes sim)
                   then produces_of sim d else ∅)).
  - split.
    + intros [[?|(d & ? & Hd)]|?]; [by left| |by right; right].
      case_decide; [|set_solver]. right. left. by exists d.
    + intros [?|[(d & ? & ? & ?)|?]]; [by left; left| |by right].
      left. right. exists d. split; [done|]. by rewrite decide_True.
  - intros n acc x. case_decide; set_solver.
Qed.

(** C1, as stated, fails: a rule whose non-empty [clears] list leaves out
    a field its node produces replaces the produces set, so the field is
    not cleared. *)
Lemma full_downstream_superset_counterexample :
  "A" ∈ dom (_produces rule_gap_sim)
  ∧ ¬ (produces_of rule_gap_sim "A" ⊆ _clears_full_downstream rule_gap_sim "A").
Proof.
  split.
  - apply elem_of_dom. by eexists.
  - intros Hsub.
    assert (bool_decide ("a" ∈ _clears_full_downstream rule_gap_sim "A") = false)
      as Hout by (by vm_compute).
    apply bool_decide_eq_false in Hout. apply Hout, Hsub.
    assert (bool_decide ("a" ∈ produces_of rule_gap_sim "A") = true)
      as Hin by (by vm_compute).
    by apply bool_decide_eq_true in Hin.
Qed.

(** C1, amended: the clear set of [full_downstream] always contains the
    always-cleared set and, for every node D that is N or downstream of N,
    the fields D contributes (its rule's non-empty [clears] list, else its
    produces set); so it contains produces(D) whenever those contributed
    fields do, which is the case for every D without a non-empty
    [clears] list. *)
Theorem full_downstream_superset sim N D :
  D = N ∨ reachable (node_graph sim) N D →
  _reports_fixed sim ⊆ _clears_full_downstream sim N
  ∧ clears_of_target sim D ⊆ _clears_full_downstream sim N
  ∧ (produces_of sim D ⊆ clears_of_target sim D →
     produces_of sim D ⊆ _clears_full_downstream sim N)
  ∧ ((∀ e, _rule_clears sim !! D = Some e → clears e = None ∨ clears e = Some []) →
     produces_of sim D ⊆ _clears_full_downstream sim N).
Proof.
  intros HD.
  assert (clears_of_target sim D ⊆ _clears_full_downstream sim N) as Hsub.
  { intros f Hf. apply elem_of_clears_full_downstream. left. exists D.
    split; [|done]. destruct (decide (D = N)) as [->|Hne]; [by left|right].
    apply elem_of_downstream_nodes. naive_solver. }
  split; [|split; [done|split]].
  - intros f Hf. apply elem_of_clears_full_downstream. by right.
  - intros Hcover. by etrans.
  - intros Hrule. etrans; [|exact Hsub]. unfold clears_of_target.
    destruct (_rule_clears sim !! D) as [e|] eqn:He; [|done].
    destruct (Hrule e eq_refl) as [Hc|Hc]; destruct e as [c]; simpl in Hc;
      by subst c.
Qed.

Lemma full_downstream_superset_witness :
  ("Z" = "X" ∨ reachable (node_graph cyclic_sim) "X" "Z")
  ∧ _reports_fixed cyclic_sim ⊆ _clears_full_downstream cyclic_sim "X"
  ∧ produces_of cyclic_sim "Z" ⊆ _clears_full_downstream cyclic_sim "X".
Proof.
  assert (reachable (node_graph cyclic_sim) "X" "Z") as Hreach.
  { apply tc_once. unfold edge.
    assert (successors (node_graph cyclic_sim) "X" = ["Y"; "Z"]) as ->
      by (vm_compute; reflexivity).
    apply elem_of_cons. right. apply elem_of_cons. by left. }
  split; [by right|].
  destruct (full_downstream_superset cyclic_sim "X" "Z") as (Hrep & _ & _ & Hsub);
    [by right|].
  split; [exact Hrep|]. apply Hsub.
  intros e He. simpl in He. by rewrite lookup_empty in He.
Defined.

(** ** The transition [step] *)

Lemma step_rollback_eq sim state executed a :
  a_type a = Some "ROLLBACK" →
  step sim state executed a = step_rollback sim state executed a.
Proof. intros Ht. unfold step, type_is. by rewrite Ht. Qed.

Lemma step_execute_eq sim state executed a :
  a_type a = Some "EXECUTE" →
  step sim state executed a = step_execute sim state executed a.
Proof. intros Ht. unfold step, type_is. by rewrite Ht. Qed.

(** C4: a ROLLBACK whose policy is none of the three known names returns
    [ok = false] with the single event naming the policy, and hands back
    the state and the history it was given. *)
Theorem rollback_unknown_policy sim state executed a node p :
  a_type a = Some "ROLLBACK" → a_node a = Some node → a_policy a = Some p →
  p ≠ "full_downstream" → p ≠ "aggregate_only" → p ≠ "custom" →
  step sim state executed a
  = Some {| ok := false; updated_state := state; executed_nodes := executed;
            events := [ "Unknown policy " +:+ p ] |}.
Proof.
  intros Ht Hn Hp Hfull Hagg Hcustom.
  rewrite step_rollback_eq by done. unfold step_rollback.
  rewrite Hn, Hp. simpl.
  apply String.eqb_neq in Hfull, Hagg, Hcustom.
  by rewrite Hagg, Hfull, Hcustom.
Qed.

Lemma rollback_unknown_policy_witness :
  step cyclic_sim {[ "a" := VInt 1 ]} ["X"; "Y"]
       (rollback_action "X" (Some "nonexistent"))
  = Some {| ok := false; updated_state := {[ "a" := VInt 1 ]};
            executed_nodes := ["X"; "Y"];
            events := [ "Unknown policy nonexistent" ] |}.
Proof.
  apply (rollback_unknown_policy cyclic_sim {[ "a" := VInt 1 ]} ["X"; "Y"]
           (rollback_action "X" (Some "nonexistent")) "X" "nonexistent");
    (reflexivity || discriminate).
Defined.

(** C10: a ROLLBACK without a [policy] key does not fail; its result is
    the result of the same action with [policy = full_downstream]: the
    fields of [_clears_full_downstream] are deleted from the state and the
    node with its downstream nodes leaves the history. *)
Theorem rollback_default_policy sim state executed a node :
  a_type a = Some "ROLLBACK" → a_node a = Some node → a_policy a = None →
  step sim state executed a
  = step sim state executed (with_policy a (Some "full_downstream"))
  ∧ ∃ r, step sim state executed a = Some r
         ∧ ok r = true
         ∧ (∀ k, updated_state r !! k
                 = if decide (k ∈ _clears_full_downstream sim node)
                   then None else state !! k)
         ∧ executed_nodes r
           = filter (λ n, n ∉ ({[node]} ∪ _downstream_nodes sim node : gset string))
                    executed.
Proof.
  intros Ht Hn Hp. split.
  - rewrite !step_rollback_eq by done. unfold step_rollback. simpl.
    by rewrite Hn, Hp.
  - rewrite step_rollback_eq by done. unfold step_rollback.
    rewrite Hn, Hp. simpl. eexists. split; [done|]. simpl.
    split; [done|]. split; [|done]. intros k. apply lookup_apply_clear.
Qed.

Lemma rollback_default_policy_witness :
  step cyclic_sim {[ "a" := VInt 1; "keep" := VInt 2 ]} ["X"; "W"]
       (rollback_action "X" None)
  = step cyclic_sim {[ "a" := VInt 1; "keep" := VInt 2 ]} ["X"; "W"]
         (rollback_action "X" (Some "full_downstream")).
Proof.
  apply (rollback_default_policy cyclic_sim _ _ (rollback_action "X" None) "X");
    reflexivity.
Defined.

(** C5: EXECUTE of node N writes exactly the fields of produces(N): each
    takes the payload's value if the payload has one, else keeps the value
    the state holds, else becomes [None]; every other key is untouched.
    From the empty state, with N producing [a] and [b] and the payload
    [{a: "1"}], the state becomes [{a: "1", b: None}], the history [[N]]
    and [ok] is true. *)
Theorem execute_writes_produces sim state executed a N :
  a_type a = Some "EXECUTE" → a_node a = Some N →
  (∃ r, step sim state executed a = Some r
        ∧ ok r = true
        ∧ ∀ f, updated_state r !! f
               = if decide (f ∈ produces_of sim N)
                 then Some (match default ∅ (a_payload a) !! f with
                            | Some v => v
                            | None => default VNone (state !! f)
                            end)
                 else state !! f)
  ∧ (produces_of sim N = {[ "a"; "b" ]} →
     step sim ∅ [] (execute_action N (Some {[ "a" := VStr "1" ]}))
     = Some {| ok := true;
               updated_state := {[ "a" := VStr "1"; "b" := VNone ]};
               executed_nodes := [N];
               events := [ "EXECUTE " +:+ N +:+ ": wrote 2 fields" ] |}).
Proof.
  intros Ht Hn. split.
  - rewrite step_execute_eq by done. unfold step_execute. rewrite Hn. simpl.
    eexists. split; [done|]. split; [done|]. simpl. intros f.
    apply lookup_write_fields.
  - intros Hprod. rewrite step_execute_eq by done.
    unfold step_execute, _write_set. simpl. rewrite Hprod.
    vm_compute. reflexivity.
Qed.

Lemma execute_writes_produces_witness :
  step cyclic_sim ∅ [] (execute_action "X" (Some {[ "a" := VStr "1" ]}))
  = Some {| ok := true;
            updated_state := {[ "a" := VStr "1"; "b" := VNone ]};
            executed_nodes := ["X"];
            events := [ "EXECUTE X: wrote 2 fields" ] |}.
Proof.
  apply (execute_writes_produces cyclic_sim ∅ []
           (execute_action "X" (Some {[ "a" := VStr "1" ]})) "X");
    reflexivity.
Defined.

(** The number of times [n] occurs in a history. *)
Lemma occurrences_app (n : string) (l1 l2 : list string) :
  length (filter (λ m, m = n) (l1 ++ l2)%list)
  = (length (filter (λ m, m = n) l1) + length (filter (λ m, m = n) l2))%nat.
Proof. by rewrite filter_app, length_app. Qed.

Lemma occurrences_absent (n : string) (l : list string) :
  n ∉ l → length (filter (λ m, m = n) l) = 0%nat.
Proof.
  induction l as [|x l IH]; [done|]. intros Hn.
  apply not_elem_of_cons in Hn as [Hne Hn].
  rewrite filter_cons_False by done. by apply IH.
Qed.

Lemma occurrences_present (n : string) (l : list string) :
  n ∈ l → (1 ≤ length (filter (λ m, m = n) l))%nat.
Proof.
  induction l as [|x l IH]; intros Hn; [by apply elem_of_nil in Hn|].
  destruct (decide (x = n)) as [->|Hne].
  - rewrite filter_cons_True by done. simpl. lia.
  - rewrite filter_cons_False by done. apply IH.
    apply elem_of_cons in Hn as [->|]; done.
Qed.

(** C8: two EXECUTEs of N in a row, from a history in which N occurs at
    most once: N is in the history exactly once after the first and after
    the second, the second leaves the history as the first left it, and
    each call writes the produced fields again, from its own payload and
    the state it received. *)
Theorem execute_twice sim state executed N p1 p2 :
  (length (filter (λ m, m = N) executed) ≤ 1)%nat →
  ∃ r1 r2,
    step sim state executed (execute_action N p1) = Some r1
    ∧ step sim (updated_state r1) (executed_nodes r1) (execute_action N p2) = Some r2
    ∧ executed_nodes r2 = executed_nodes r1
    ∧ length (filter (λ m, m = N) (executed_nodes r2)) = 1%nat
    ∧ (∀ f, f ∈ produces_of sim N →
            updated_state r1 !! f = Some (written_value (default ∅ p1) state f)
            ∧ updated_state r2 !! f
              = Some (written_value (default ∅ p2) (updated_state r1) f)).
Proof.
  intros Hocc.
  rewrite step_execute_eq by done. unfold step_execute at 1. simpl.
  eexists. eexists. split; [done|]. simpl.
  rewrite step_execute_eq by done. unfold step_execute. simpl.
  split; [done|]. simpl.
  assert (N ∈ (if decide (N ∈ executed) then executed else (executed ++ [N])%list))
    as Hin.
  { case_decide; [done|]. apply elem_of_app. right. by apply list_elem_of_singleton. }
  rewrite (decide_True _ _ Hin). split; [done|]. split.
  - case_decide as HN.
    + apply occurrences_present in HN. lia.
    + rewrite occurrences_app, (occurrences_absent _ _ HN).
      by rewrite filter_cons_True.
  - intros f Hf. rewrite !lookup_write_fields.
    by rewrite !decide_True by done.
Qed.

Lemma execute_twice_witness :
  (length (filter (λ m, m = "X") ["Y"]) ≤ 1)%nat
  ∧ ∃ r1 r2,
      step cyclic_sim ∅ ["Y"] (execute_action "X" None) = Some r1
      ∧ step cyclic_sim (updated_state r1) (executed_nodes r1)
             (execute_action "X" (Some {[ "a" := VInt 7 ]})) = Some r2
      ∧ executed_nodes r2 = executed_nodes r1
      ∧ length (filter (λ m, m = "X") (executed_nodes r2)) = 1%nat.
Proof.
  assert (length (filter (λ m, m = "X") ["Y"]) ≤ 1)%nat as Hocc
    by (vm_compute; lia).
  split; [exact Hocc|].
  destruct (execute_twice cyclic_sim ∅ ["Y"] "X" None (Some {[ "a" := VInt 7 ]}) Hocc)
    as (r1 & r2 & H1 & H2 & H3 & H4 & _).
  exists r1, r2. by repeat split.
Defined.

Lemma remove_nodes_elem_of (rm : gset string) (executed : list string) n :
  n ∈ remove_nodes rm executed ↔ n ∈ executed ∧ n ∉ rm.
Proof. unfold remove_nodes. rewrite list_elem_of_filter. naive_solver. Qed.

Lemma remove_nodes_list (l executed : list string) :
  remove_nodes (list_to_set l) executed = filter (λ n, n ∉ l) executed.
Proof.
  unfold remove_nodes. apply list_filter_iff. intros n.
  by rewrite elem_of_list_to_set.
Qed.

(** C3: in a custom ROLLBACK the [exclude_nodes] list changes neither
    the resulting state, nor the resulting history, nor [ok]; the history
    loses exactly the nodes listed in [include_nodes], so the node named
    in the action stays unless [include_nodes] lists it. *)
Theorem custom_rollback_exclude_inert sim state executed a node e :
  a_type a = Some "ROLLBACK" → a_node a = Some node →
  a_policy a = Some "custom" →
  ∃ r r',
    step sim state executed a = Some r
    ∧ step sim state executed (with_exclude_nodes a e) = Some r'
    ∧ updated_state r = updated_state r'
    ∧ executed_nodes r = executed_nodes r'
    ∧ ok r = ok r'
    ∧ executed_nodes r
      = filter (λ n, n ∉ default [] (a_include_nodes a)) executed
    ∧ (node ∉ default [] (a_include_nodes a) →
       node ∈ executed → node ∈ executed_nodes r).
Proof.
  intros Ht Hn Hp.
  rewrite !step_rollback_eq by done. unfold step_rollback. simpl.
  rewrite Hn, Hp. simpl. eexists. eexists.
  split; [done|]. split; [done|]. simpl.
  split; [done|]. split; [done|]. split; [done|].
  assert ((if decide ((list_to_set (default [] (a_include_nodes a)) : gset string) = ∅)
           then executed
           else remove_nodes (list_to_set (default [] (a_include_nodes a))) executed)
          = filter (λ n, n ∉ default [] (a_include_nodes a)) executed) as ->.
  { rewrite <- remove_nodes_list. case_decide as Hempty; [|done].
    rewrite Hempty. unfold remove_nodes.
    induction executed as [|x l IH]; [done|].
    rewrite filter_cons_True by set_solver. by rewrite <- IH. }
  split; [done|]. intros Hout Hin. apply list_elem_of_filter. done.
Qed.

Lemma custom_rollback_exclude_inert_witness :
  ∃ r r',
    step cyclic_sim {[ "a" := VInt 1; "c" := VInt 2 ]} ["X"; "Y"; "Z"]
         (custom_rollback "X" (Some ["Y"]) None None None) = Some r
    ∧ step cyclic_sim {[ "a" := VInt 1; "c" := VInt 2 ]} ["X"; "Y"; "Z"]
           (custom_rollback "X" (Some ["Y"]) (Some ["Y"; "X"]) None None) = Some r'
    ∧ updated_state r = updated_state r'
    ∧ executed_nodes r = executed_nodes r'
    ∧ "X" ∈ executed_nodes r.
Proof.
  destruct (custom_rollback_exclude_inert cyclic_sim
              {[ "a" := VInt 1; "c" := VInt 2 ]} ["X"; "Y"; "Z"]
              (custom_rollback "X" (Some ["Y"]) None None None) "X"
              (Some ["Y"; "X"]))
    as (r & r' & H1 & H2 & H3 & H4 & _ & _ & H5); [reflexivity..|].
  exists r, r'. repeat split; [exact H1|exact H2|exact H3|exact H4|].
  apply H5.
  - simpl. intros Hin. apply list_elem_of_singleton in Hin. discriminate.
  - apply elem_of_cons. by left.
Defined.

(** C6: a ROLLBACK with [policy = aggregate_only] on N deletes from the
    state exactly the fields of produces(N), of produces(D) for the
    aggregate nodes D reachable from N, and of the always-cleared set;
    the history afterwards is the old one without N and without the
    aggregate nodes downstream of N, the rest in its original order. *)
Theorem aggregate_only_rollback sim state executed a N :
  a_type a = Some "ROLLBACK" → a_node a = Some N →
  a_policy a = Some "aggregate_only" →
  ∃ r (affected : gset string),
    step sim state executed a = Some r
    ∧ ok r = true
    ∧ (∀ f, f ∈ _clears_aggregate_only sim N
            ↔ f ∈ produces_of sim N
              ∨ (∃ D, reachable (node_graph sim) N D ∧ D ∈ _aggregate_nodes sim
                      ∧ f ∈ produces_of sim D)
              ∨ f ∈ _reports_fixed sim)
    ∧ (∀ k, updated_state r !! k
            = if decide (k ∈ _clears_aggregate_only sim N) then None else state !! k)
    ∧ (∀ n, n ∈ affected
            ↔ n = N ∨ (reachable (node_graph sim) N n ∧ n ≠ N
                       ∧ n ∈ _aggregate_nodes sim))
    ∧ executed_nodes r = filter (λ n, n ∉ affected) executed
    ∧ (∀ n, n ∈ executed_nodes r ↔ n ∈ executed ∧ n ∉ affected).
Proof.
  intros Ht Hn Hp.
  rewrite step_rollback_eq by done. unfold step_rollback.
  rewrite Hn, Hp. simpl. eexists. eexists. split; [done|]. simpl.
  split; [done|]. split; [|split; [|split; [|split; [done|]]]].
  - intros f. rewrite elem_of_clears_aggregate_only. split.
    + intros [?|[(d & Hd & ? & ?)|?]]; [by left| |by right; right].
      right. left. exists d. apply elem_of_downstream_nodes in Hd. naive_solver.
    + intros [?|[(D & HD & ? & ?)|?]]; [by left| |by right; right].
      destruct (decide (D = N)) as [->|Hne]; [by left|].
      right. left. exists D. rewrite elem_of_downstream_nodes. naive_solver.
  - intros k. apply lookup_apply_clear.
  - intros n. rewrite elem_of_union, elem_of_singleton, elem_of_filter,
      elem_of_downstream_nodes. naive_solver.
  - intros n. apply remove_nodes_elem_of.
Qed.

Lemma aggregate_only_rollback_witness :
  ∃ r, step cyclic_sim {[ "a" := VInt 1; "c" := VInt 2; "d" := VInt 3 ]}
            ["X"; "Y"; "Z"] (rollback_action "X" (Some "aggregate_only")) = Some r
       ∧ ok r = true
       ∧ updated_state r = {[ "c" := VInt 2 ]}
       ∧ executed_nodes r = ["Y"].
Proof.
  destruct (aggregate_only_rollback cyclic_sim
              {[ "a" := VInt 1; "c" := VInt 2; "d" := VInt 3 ]} ["X"; "Y"; "Z"]
              (rollback_action "X" (Some "aggregate_only")) "X")
    as (r & affected & H1 & H2 & _); [reflexivity..|].
  exists r. split; [exact H1|]. split; [exact H2|].
  assert (step cyclic_sim {[ "a" := VInt 1; "c" := VInt 2; "d" := VInt 3 ]}
               ["X"; "Y"; "Z"] (rollback_action "X" (Some "aggregate_only"))
          = Some {| ok := true; updated_state := {[ "c" := VInt 2 ]};
                    executed_nodes := ["Y"];
                    events := [ "ROLLBACK X aggregate_only: cleared 4 fields; removed nodes=['X', 'Z']" ] |})
    as Hrun by (vm_compute; reflexivity).
  rewrite Hrun in H1. injection H1 as <-. by split.
Defined.

(** ** The readiness gates *)

Lemma passed_iff_no_errors node state :
  passed (validate_node_ready node state) = true
  ↔ errors (validate_node_ready node state) = [].
Proof.
  unfold validate_node_ready, validate_state_for_report.
  repeat case_match; simpl; rewrite ?bool_decide_eq_true, ?length_zero_iff_nil;
    done.
Qed.

(** X13: when the report gate passes, so does the grading gate: the
    report gate asks for the same grading evidence unless there is no
    nodule. *)
Lemma report_gate_implies_grading_gate state :
  passed (validate_node_ready "VIS_REPORT" state) = true →
  passed (validate_node_ready "TI-RADS" state) = true.
Proof.
  rewrite !passed_iff_no_errors.
  unfold validate_node_ready. cbn [String.eqb Ascii.eqb Bool.eqb].
  unfold validate_state_for_report. cbn [errors].
  destruct (_is_no_nodule state); [done|].
  destruct (negb _); [|done].
  intros Herr. apply app_eq_nil in Herr as [_ Herr]. discriminate.
Qed.

(** C2: GENERATE_REPORT hands back the state and the history unchanged;
    [ok] is the conjunction of the [passed] flags of the TI-RADS gate and
    of the VIS_REPORT gate, so it is true exactly when neither gate lists
    an error: warnings play no part, and one failing gate is enough to
    make it false. *)
Theorem generate_report_gating sim state executed a :
  a_type a = Some "GENERATE_REPORT" →
  ∃ r, step sim state executed a = Some r
       ∧ updated_state r = state
       ∧ executed_nodes r = executed
       ∧ ok r = passed (validate_node_ready "TI-RADS" state)
                && passed (validate_node_ready "VIS_REPORT" state)
       ∧ (ok r = true
          ↔ errors (validate_node_ready "TI-RADS" state) = []
            ∧ errors (validate_node_ready "VIS_REPORT" state) = [])
       ∧ (passed (validate_node_ready "TI-RADS" state) = false
          ∨ passed (validate_node_ready "VIS_REPORT" state) = false →
          ok r = false).
Proof.
  intros Ht.
  assert (step sim state executed a = step_generate_report state executed) as ->.
  { unfold step, type_is. by rewrite Ht. }
  unfold step_generate_report. eexists. split; [reflexivity|].
  cbn [ok updated_state executed_nodes].
  split; [reflexivity|]. split; [reflexivity|]. split; [reflexivity|]. split.
  - rewrite andb_true_iff. by rewrite !passed_iff_no_errors.
  - intros [->| ->]; [reflexivity|]. apply andb_false_r.
Qed.

Lemma generate_report_gating_witness :
  ∃ r, step cyclic_sim
            {[ "state.tirads_score" := VInt 5; "state.tirads_label" := VStr "TR4A";
               "state.conclusion_text" := VStr "biopsy advised";
               "state.recommendation" := VStr "FNA" ]}
            ["X"] generate_report_action = Some r
       ∧ ok r = true
       ∧ warnings (validate_node_ready "VIS_REPORT" (updated_state r))
         = [ "TI-RADS label not aligned with score (ranks differ)." ].
Proof.
  destruct (generate_report_gating cyclic_sim
              {[ "state.tirads_score" := VInt 5; "state.tirads_label" := VStr "TR4A";
                 "state.conclusion_text" := VStr "biopsy advised";
                 "state.recommendation" := VStr "FNA" ]}
              ["X"] generate_report_action eq_refl)
    as (r & Hr & Hst & _ & Hok & _).
  exists r. split; [exact Hr|]. split.
  - rewrite Hok. vm_compute. reflexivity.
  - rewrite Hst. vm_compute. reflexivity.
Defined.

(** ** Alias-aware lookup *)

Lemma first_alias_skip state pre alt post v :
  (∀ a, a ∈ pre → state !! a = None) → state !! alt = Some v →
  first_alias state (pre ++ alt :: post) = v.
Proof.
  induction pre as [|p pre IH]; intros Hpre Halt; simpl.
  - by rewrite Halt.
  - rewrite (Hpre p) by (by left). apply IH; [|done].
    intros a Ha. apply Hpre. by right.
Qed.

Lemma first_alias_none state alts :
  (∀ a, a ∈ alts → state !! a = None) → first_alias state alts = VNone.
Proof.
  induction alts as [|p alts IH]; intros Hall; simpl; [done|].
  rewrite (Hall p) by (by left). apply IH. intros a Ha. apply Hall. by right.
Qed.

Lemma first_alias_by_presence state alts :
  (∀ k v, state !! k = Some v → nonempty v = true) →
  first_alias state alts
  = match filter (λ alt, nonempty (state_get state alt) = true) alts with
    | alt :: _ => state_get state alt
    | [] => VNone
    end.
Proof.
  intros Hfull. induction alts as [|p alts IH]; simpl; [done|].
  destruct (state !! p) as [v|] eqn:Hp.
  - rewrite filter_cons_True; unfold state_get; rewrite Hp; simpl; [done|].
    by apply (Hfull p).
  - rewrite filter_cons_False; [done|]. unfold state_get. by rewrite Hp.
Qed.

(** C7, as stated, fails: the canonical key holds an empty string and an
    alternate name holds a grade; the lookup returns the empty string, not
    the first alternate that is present. *)
Lemma alias_lookup_counterexample :
  _get {[ "state.tirads_score" := VStr EmptyString; "ti_rads_score" := VStr "5" ]}
       "state.tirads_score" = VStr EmptyString
  ∧ get_by_presence KEY_ALIASES
      {[ "state.tirads_score" := VStr EmptyString; "ti_rads_score" := VStr "5" ]}
      "state.tirads_score" = VStr "5"
  ∧ _get {[ "state.tirads_score" := VStr EmptyString; "ti_rads_score" := VStr "5" ]}
         "state.tirads_score"
    ≠ get_by_presence KEY_ALIASES
        {[ "state.tirads_score" := VStr EmptyString; "ti_rads_score" := VStr "5" ]}
        "state.tirads_score".
Proof.
  assert (_get {[ "state.tirads_score" := VStr EmptyString; "ti_rads_score" := VStr "5" ]}
               "state.tirads_score" = VStr EmptyString) as Hcode
    by (vm_compute; reflexivity).
  assert (get_by_presence KEY_ALIASES
            {[ "state.tirads_score" := VStr EmptyString; "ti_rads_score" := VStr "5" ]}
            "state.tirads_score" = VStr "5") as Hspec
    by (vm_compute; reflexivity).
  split; [exact Hcode|]. split; [exact Hspec|].
  rewrite Hcode, Hspec. discriminate.
Qed.

(** C7, amended: the lookup is decided by which keys the state holds,
    not by whether their values are empty.  It returns the value stored
    under the canonical key whenever the state has that key (be the value
    [None] or empty); otherwise the value stored under the first
    alternate name the state has as a key; otherwise [None].  On a state
    that stores no [None] and no empty string, list or map, this is the
    lookup by presence. *)
Theorem alias_lookup_by_key state key :
  (∀ v, state !! key = Some v → _get state key = v)
  ∧ (state !! key = None →
     ∀ pre alt post v,
       aliases_in KEY_ALIASES key = (pre ++ alt :: post)%list →
       (∀ a, a ∈ pre → state !! a = None) → state !! alt = Some v →
       _get state key = v)
  ∧ (state !! key = None →
     (∀ a, a ∈ aliases_in KEY_ALIASES key → state !! a = None) →
     _get state key = VNone)
  ∧ ((∀ k v, state !! k = Some v → nonempty v = true) →
     _get state key = get_by_presence KEY_ALIASES state key).
Proof.
  unfold _get, get_with. split; [|split; [|split]].
  - by intros v ->.
  - intros -> pre alt post v -> Hpre Halt. by apply first_alias_skip.
  - intros -> Hall. by apply first_alias_none.
  - intros Hfull. unfold get_by_presence, state_get at 1 2.
    destruct (state !! key) as [v|] eqn:Hk; simpl.
    + by rewrite (Hfull key v Hk).
    + by apply first_alias_by_presence.
Qed.

Lemma alias_lookup_by_key_witness :
  _get {[ "ti_rads_score" := VNone; "state.ti_rads_score" := VStr EmptyString ]}
       "state.tirads_score" = VStr EmptyString.
Proof.
  destruct (alias_lookup_by_key
              {[ "ti_rads_score" := VNone; "state.ti_rads_score" := VStr EmptyString ]}
              "state.tirads_score") as (_ & Halt & _ & _).
  apply (Halt eq_refl [] "state.ti_rads_score"
           [ "ti_rads_score";
             "state.thyroid_nodules_detail.nodules.ti_rads_score_overall" ]).
  - reflexivity.
  - intros a Ha. by apply elem_of_nil in Ha.
  - reflexivity.
Defined.

(** * Further properties of the simulator *)

(** ** What every transition keeps *)

Lemma apply_clear_idempotent (state : gmap string value) (fields : gset string) :
  _apply_clear (_apply_clear state fields) fields = _apply_clear state fields.
Proof.
  apply map_eq. intros k. rewrite !lookup_apply_clear. by case_decide.
Qed.

Lemma apply_clear_subseteq (state : gmap string value) (fields : gset string) :
  _apply_clear state fields ⊆ state.
Proof.
  apply map_subseteq_spec. intros k v. rewrite lookup_apply_clear.
  by case_decide.
Qed.

Lemma remove_nodes_idempotent (rm : gset string) (executed : list string) :
  remove_nodes rm (remove_nodes rm executed) = remove_nodes rm executed.
Proof. unfold remove_nodes. by apply list_filter_filter_r. Qed.

(** X1: a history without repetition stays without repetition, whatever
    the action: EXECUTE appends the node only when it is not there,
    ROLLBACK filters, CLARIFY and GENERATE_REPORT do not touch it. *)
Theorem step_keeps_history_nodup sim state executed a r :
  NoDup executed → step sim state executed a = Some r →
  NoDup (executed_nodes r).
Proof.
  intros Hnd. unfold step.
  destruct (type_is a "EXECUTE").
  { unfold step_execute. destruct (a_node a) as [node|]; simpl; [|done].
    intros [= <-]. simpl. case_decide as Hin; [done|].
    apply NoDup_app. split; [done|]. split; [|apply NoDup_singleton].
    intros x Hx Hx'. apply list_elem_of_singleton in Hx'. by subst. }
  destruct (type_is a "ROLLBACK").
  { unfold step_rollback. destruct (a_node a) as [node|]; simpl; [|done].
    repeat case_match; intros [= <-]; simpl; try done;
      by apply NoDup_filter. }
  destruct (type_is a "CLARIFY").
  { unfold step_clarify. destruct (a_slot a); simpl; [|done].
    destruct (pending_slots state); simpl; [|done]. by intros [= <-]. }
  destruct (type_is a "GENERATE_REPORT"); by intros [= <-].
Qed.

Lemma step_keeps_history_nodup_witness :
  NoDup ["Y"; "Z"]
  ∧ ∃ r, step cyclic_sim ∅ ["Y"; "Z"] (execute_action "X" None) = Some r
         ∧ NoDup (executed_nodes r).
Proof.
  assert (NoDup ["Y"; "Z"]) as Hnd.
  { apply NoDup_cons. split; [|apply NoDup_singleton].
    intros Hin. apply list_elem_of_singleton in Hin. discriminate. }
  split; [exact Hnd|]. eexists. split; [reflexivity|].
  eapply (step_keeps_history_nodup cyclic_sim ∅ ["Y"; "Z"]
            (execute_action "X" None)); [exact Hnd|reflexivity].
Defined.

(** X2: a transition that answers [ok = false] (unknown policy, unknown
    action type, failed report gates) hands back the state and the
    history exactly as given. *)
Theorem failed_step_changes_nothing sim state executed a r :
  step sim state executed a = Some r → ok r = false →
  updated_state r = state ∧ executed_nodes r = executed.
Proof.
  unfold step.
  destruct (type_is a "EXECUTE").
  { unfold step_execute. destruct (a_node a); simpl; [|done].
    by intros [= <-]. }
  destruct (type_is a "ROLLBACK").
  { unfold step_rollback. destruct (a_node a); simpl; [|done].
    repeat case_match; by intros [= <-]. }
  destruct (type_is a "CLARIFY").
  { unfold step_clarify. destruct (a_slot a); simpl; [|done].
    destruct (pending_slots state); simpl; [|done]. by intros [= <-]. }
  destruct (type_is a "GENERATE_REPORT"); by intros [= <-].
Qed.

Lemma failed_step_changes_nothing_witness :
  ∃ r, step cyclic_sim {[ "a" := VInt 1 ]} ["X"] generate_report_action = Some r
       ∧ ok r = false
       ∧ updated_state r = {[ "a" := VInt 1 ]} ∧ executed_nodes r = ["X"].
Proof.
  eexists. split; [reflexivity|].
  assert (ok (default {| ok := true; updated_state := ∅; executed_nodes := [];
                         events := [] |}
                (step cyclic_sim {[ "a" := VInt 1 ]} ["X"] generate_report_action))
          = false) as Hok by (vm_compute; reflexivity).
  split; [exact Hok|].
  apply (failed_step_changes_nothing cyclic_sim {[ "a" := VInt 1 ]} ["X"]
           generate_report_action); [reflexivity|exact Hok].
Defined.

(** X3: ROLLBACK is idempotent.  Repeating a ROLLBACK on the state and
    history it produced returns the very same result: nothing more is
    deleted, nothing more leaves the history, and the event is the same. *)
Theorem rollback_idempotent sim state executed a r :
  a_type a = Some "ROLLBACK" →
  step sim state executed a = Some r →
  step sim (updated_state r) (executed_nodes r) a = Some r.
Proof.
  intros Ht. rewrite !step_rollback_eq by done. unfold step_rollback.
  destruct (a_node a) as [node|]; simpl; [|done].
  repeat case_match; intros [= <-]; simpl; try done.
  - by rewrite apply_clear_idempotent, remove_nodes_idempotent.
  - by rewrite apply_clear_idempotent, remove_nodes_idempotent.
  - by rewrite apply_clear_idempotent.
  - by rewrite apply_clear_idempotent, remove_nodes_idempotent.
  - by rewrite apply_clear_idempotent.
  - by rewrite apply_clear_idempotent, remove_nodes_idempotent.
Qed.

Lemma rollback_idempotent_witness :
  ∃ r, step cyclic_sim {[ "a" := VInt 1; "keep" := VInt 2 ]} ["W"; "X"; "Z"]
            (rollback_action "X" (Some "aggregate_only")) = Some r
       ∧ step cyclic_sim (updated_state r) (executed_nodes r)
              (rollback_action "X" (Some "aggregate_only")) = Some r.
Proof.
  eexists. split; [reflexivity|].
  apply (rollback_idempotent cyclic_sim {[ "a" := VInt 1; "keep" := VInt 2 ]}
           ["W"; "X"; "Z"] (rollback_action "X" (Some "aggregate_only")));
    reflexivity.
Defined.

(** X4: ROLLBACK only removes.  Whatever the policy, every entry of the
    resulting state is an entry of the old state with the same value, and
    the resulting history is a subsequence of the old one. *)
Theorem rollback_only_removes sim state executed a r :
  a_type a = Some "ROLLBACK" →
  step sim state executed a = Some r →
  updated_state r ⊆ state ∧ executed_nodes r `sublist_of` executed.
Proof.
  intros Ht. rewrite step_rollback_eq by done. unfold step_rollback.
  destruct (a_node a) as [node|]; simpl; [|done].
  repeat case_match; intros [= <-]; simpl;
    (split; [first [apply apply_clear_subseteq | done]
            |first [apply sublist_filter | done]]).
Qed.

Lemma rollback_only_removes_witness :
  ∃ r, step cyclic_sim {[ "a" := VInt 1; "keep" := VInt 2 ]} ["W"; "X"; "Z"]
            (custom_rollback "X" (Some ["Z"]) None (Some ["a"]) (Some false)) = Some r
       ∧ updated_state r ⊆ {[ "a" := VInt 1; "keep" := VInt 2 ]}
       ∧ executed_nodes r `sublist_of` ["W"; "X"; "Z"].
Proof.
  eexists. split; [reflexivity|].
  apply (rollback_only_removes cyclic_sim {[ "a" := VInt 1; "keep" := VInt 2 ]}
           ["W"; "X"; "Z"]
           (custom_rollback "X" (Some ["Z"]) None (Some ["a"]) (Some false)));
    reflexivity.
Defined.

(** ** Clear sets along the graph *)

(** X5: rolling back an upstream node covers rolling back any node
    downstream of it: both the nodes affected and the fields cleared by
    [full_downstream] on D are among those of N whenever D is N or is
    reachable from N. *)
Theorem full_downstream_monotone sim N D :
  D = N ∨ reachable (node_graph sim) N D →
  _downstream_nodes sim D ⊆ {[N]} ∪ _downstream_nodes sim N
  ∧ _clears_full_downstream sim D ⊆ _clears_full_downstream sim N.
Proof.
  intros HD.
  assert (∀ n, n = D ∨ n ∈ _downstream_nodes sim D →
               n = N ∨ n ∈ _downstream_nodes sim N) as Htargets.
  { intros n Hn. destruct (decide (n = N)) as [|Hne]; [by left|right].
    apply elem_of_downstream_nodes. split; [|done].
    destruct Hn as [->|Hn]; [naive_solver|].
    apply elem_of_downstream_nodes in Hn as [Hn _].
    destruct HD as [->|HD]; [done|]. by eapply tc_trans. }
  split.
  - intros n Hn. apply elem_of_union. rewrite elem_of_singleton.
    apply Htargets. by right.
  - intros f. rewrite !elem_of_clears_full_downstream.
    intros [(n & Hn & Hf)|Hf]; [left|by right].
    exists n. split; [by apply Htargets|done].
Qed.

Lemma full_downstream_monotone_witness :
  ("Y" = "X" ∨ reachable (node_graph cyclic_sim) "X" "Y")
  ∧ _clears_full_downstream cyclic_sim "Y" ⊆ _clears_full_downstream cyclic_sim "X".
Proof.
  assert (reachable (node_graph cyclic_sim) "X" "Y") as Hreach.
  { apply tc_once. unfold edge.
    assert (successors (node_graph cyclic_sim) "X" = ["Y"; "Z"]) as ->
      by (vm_compute; reflexivity).
    apply elem_of_cons. by left. }
  split; [by right|].
  apply (full_downstream_monotone cyclic_sim "X" "Y"). by right.
Defined.

(** X6: a node that the graph, the registry and the rule table do not
    know has no downstream nodes, and rolling it back clears the
    always-cleared report fields and nothing else, under both policies. *)
Theorem unknown_node_clears_reports_only sim N :
  node_graph sim !! N = None → _produces sim !! N = None →
  _rule_clears sim !! N = None →
  _downstream_nodes sim N = ∅
  ∧ _clears_full_downstream sim N = _reports_fixed sim
  ∧ _clears_aggregate_only sim N = _reports_fixed sim.
Proof.
  intros Hg Hp Hr.
  assert (∀ x, ¬ reachable (node_graph sim) N x) as Hnone.
  { intros x Hx. destruct Hx as [x y Hxy|x y z Hxy _];
      unfold edge, successors in Hxy; rewrite Hg in Hxy;
      by apply elem_of_nil in Hxy. }
  assert (_downstream_nodes sim N = ∅) as Hdown.
  { apply set_eq. intros x. rewrite elem_of_downstream_nodes. split.
    - intros [Hx _]. by apply Hnone in Hx.
    - intros Hx. by apply not_elem_of_empty in Hx. }
  split; [done|]. split.
  - apply set_eq. intros f. rewrite elem_of_clears_full_downstream, Hdown.
    split; [|by right]. intros [(n & [->|Hn] & Hf)|Hf]; [| |done].
    + unfold clears_of_target, produces_of in Hf. rewrite Hr, Hp in Hf.
      by apply not_elem_of_empty in Hf.
    + by apply not_elem_of_empty in Hn.
  - apply set_eq. intros f. rewrite elem_of_clears_aggregate_only, Hdown.
    unfold produces_of at 1. rewrite Hp. simpl. split; [|by right; right].
    intros [Hf|[(d & Hd & _)|Hf]]; [| |done].
    + by apply not_elem_of_empty in Hf.
    + by apply not_elem_of_empty in Hd.
Qed.

Lemma unknown_node_clears_reports_only_witness :
  _clears_full_downstream cyclic_sim "ghost" = {[ "report" ]}
  ∧ _clears_aggregate_only cyclic_sim "ghost" = {[ "report" ]}.
Proof.
  destruct (unknown_node_clears_reports_only cyclic_sim "ghost")
    as (_ & Hfull & Hagg); [reflexivity..|].
  by split.
Defined.

(** X7: the non-leak property of [aggregate_only].  When every field has
    at most one producer, a field produced by a node other than N that is
    not an aggregate node, and that is not an always-cleared field, is
    never in the clear set of [aggregate_only] on N. *)
Theorem aggregate_only_no_leak sim N D f :
  (∀ x n1 n2, x ∈ produces_of sim n1 → x ∈ produces_of sim n2 → n1 = n2) →
  f ∈ produces_of sim D → D ≠ N → D ∉ _aggregate_nodes sim →
  f ∉ _reports_fixed sim →
  f ∉ _clears_aggregate_only sim N.
Proof.
  intros Huniq Hf HDN Hagg Hrep.
  rewrite elem_of_clears_aggregate_only.
  intros [HN|[(d & _ & Hd & Hfd)|?]]; [|by rewrite (Huniq f D d Hf Hfd) in Hagg|done].
  by apply HDN, (Huniq f).
Qed.

Lemma aggregate_only_no_leak_witness :
  "c" ∈ produces_of cyclic_sim "Y" ∧ "c" ∉ _clears_aggregate_only cyclic_sim "X".
Proof.
  assert ("c" ∈ produces_of cyclic_sim "Y") as Hc.
  { assert (produces_of cyclic_sim "Y" = {[ "c" ]}) as -> by reflexivity.
    by apply elem_of_singleton. }
  split; [exact Hc|].
  apply (aggregate_only_no_leak cyclic_sim "X" "Y" "c"); [|exact Hc|discriminate| |].
  - intros x n1 n2 H1 H2.
    assert (∀ n, x ∈ produces_of cyclic_sim n →
                 n = (if bool_decide (x = "a") || bool_decide (x = "b") then "X"
                      else if bool_decide (x = "c") then "Y" else "Z")) as Hown.
    { intros n. unfold produces_of. cbn [_produces cyclic_sim].
      destruct (decide (n = "X")) as [->|HX].
      { rewrite lookup_insert_eq. simpl. intros Hx.
        apply elem_of_union in Hx as [Hx|Hx]; apply elem_of_singleton in Hx;
          by subst x. }
      rewrite lookup_insert_ne by done.
      destruct (decide (n = "Y")) as [->|HY].
      { rewrite lookup_insert_eq. simpl. intros Hx.
        apply elem_of_singleton in Hx. by subst x. }
      rewrite lookup_insert_ne by done.
      destruct (decide (n = "Z")) as [->|HZ].
      { rewrite lookup_singleton_eq. simpl. intros Hx.
        apply elem_of_singleton in Hx. by subst x. }
      rewrite lookup_singleton_ne by done. simpl.
      intros Hx. by apply not_elem_of_empty in Hx. }
    by rewrite (Hown n1 H1), (Hown n2 H2).
  - assert (_aggregate_nodes cyclic_sim = {[ "Z" ]}) as -> by reflexivity.
    intros Hin. apply elem_of_singleton in Hin. discriminate.
  - assert (_reports_fixed cyclic_sim = {[ "report" ]}) as -> by reflexivity.
    intros Hin. apply elem_of_singleton in Hin. discriminate.
Defined.

(** ** EXECUTE followed by ROLLBACK *)

(** Refutes a decidable hypothesis on concrete data by evaluation. *)
Ltac refute_by_evaluation H :=
  match type of H with
  | ?P =>
      let Hb := fresh "Hb" in
      assert (bool_decide P = false) as Hb by (vm_compute; reflexivity);
      apply bool_decide_eq_false in Hb; destruct (Hb H)
  end.

Lemma remove_nodes_unaffected (rm : gset string) (executed : list string) :
  (∀ n, n ∈ executed → n ∉ rm) → remove_nodes rm executed = executed.
Proof.
  unfold remove_nodes. induction executed as [|x l IH]; intros Hall; [done|].
  rewrite filter_cons_True by (apply Hall; by left).
  f_equal. apply IH. intros n Hn. apply Hall. by right.
Qed.

(** Undoing an EXECUTE: the written fields are all cleared, the state held
    none of the cleared fields, and the node is the only affected one in
    the history. *)
Lemma execute_undone (payload state : gmap string value) (ws fields rm : gset string)
    (executed : list string) (N : string) :
  ws ⊆ fields → (∀ f, f ∈ fields → state !! f = None) →
  N ∈ rm → (∀ n, n ∈ executed → n ∉ rm) →
  _apply_clear (set_fold (write_field payload) state ws) fields = state
  ∧ remove_nodes rm (if decide (N ∈ executed) then executed
                      else (executed ++ [N])%list) = executed.
Proof.
  intros Hws Hfree HN Hex. split.
  - apply map_eq. intros k. rewrite lookup_apply_clear, lookup_write_fields.
    case_decide as Hk; [symmetry; by apply Hfree|].
    rewrite decide_False; [done|]. intros Hin. by apply Hk, Hws.
  - rewrite decide_False by (intros Hin; by apply (Hex N)).
    unfold remove_nodes. rewrite filter_app.
    rewrite filter_cons_False by (intros Hout; by apply Hout).
    rewrite filter_nil, app_nil_r. by apply remove_nodes_unaffected.
Qed.

(** X8: EXECUTE of N followed by ROLLBACK of N with [aggregate_only]
    restores the state and the history, provided the state held none of
    the fields that policy clears and the history held neither N nor an
    aggregate node downstream of N. *)
Theorem execute_then_aggregate_only_rollback sim state executed N payload :
  (∀ f, f ∈ _clears_aggregate_only sim N → state !! f = None) →
  (∀ n, n ∈ executed →
        n ≠ N ∧ ¬ (reachable (node_graph sim) N n ∧ n ∈ _aggregate_nodes sim)) →
  ∃ r1 r2,
    step sim state executed (execute_action N payload) = Some r1
    ∧ step sim (updated_state r1) (executed_nodes r1)
           (rollback_action N (Some "aggregate_only")) = Some r2
    ∧ updated_state r2 = state ∧ executed_nodes r2 = executed.
Proof.
  intros Hfree Hex.
  rewrite step_execute_eq by done. unfold step_execute. simpl.
  eexists. eexists. split; [done|]. simpl.
  rewrite step_rollback_eq by done. unfold step_rollback. simpl.
  split; [done|]. simpl.
  apply execute_undone; [|done| |].
  - intros f Hf. apply elem_of_clears_aggregate_only. by left.
  - apply elem_of_union. left. by apply elem_of_singleton.
  - intros n Hn. destruct (Hex n Hn) as [Hne Hagg].
    rewrite elem_of_union, elem_of_singleton, elem_of_filter,
      elem_of_downstream_nodes. naive_solver.
Qed.

Lemma execute_then_aggregate_only_rollback_witness :
  ∃ r1 r2,
    step cyclic_sim {[ "c" := VInt 2 ]} ["Y"]
         (execute_action "X" (Some {[ "a" := VInt 1 ]})) = Some r1
    ∧ step cyclic_sim (updated_state r1) (executed_nodes r1)
           (rollback_action "X" (Some "aggregate_only")) = Some r2
    ∧ updated_state r2 = {[ "c" := VInt 2 ]} ∧ executed_nodes r2 = ["Y"].
Proof.
  apply (execute_then_aggregate_only_rollback cyclic_sim {[ "c" := VInt 2 ]}
           ["Y"] "X" (Some {[ "a" := VInt 1 ]})).
  - intros f Hf.
    destruct (decide (f = "c")) as [->|Hne]; [|by apply lookup_singleton_ne].
    refute_by_evaluation Hf.
  - intros n Hn. apply list_elem_of_singleton in Hn as ->.
    split; [discriminate|]. intros [_ Hagg].
    assert (_aggregate_nodes cyclic_sim = {[ "Z" ]}) as Heq by reflexivity.
    rewrite Heq in Hagg. apply elem_of_singleton in Hagg. discriminate.
Defined.

(** X9: EXECUTE of N followed by ROLLBACK of N with [full_downstream]
    restores the state and the history, provided the fields N contributes
    to the clear set cover what N produces, the state held none of the
    cleared fields, and the history held neither N nor a node downstream
    of N. *)
Theorem execute_then_full_downstream_rollback sim state executed N payload :
  produces_of sim N ⊆ clears_of_target sim N →
  (∀ f, f ∈ _clears_full_downstream sim N → state !! f = None) →
  (∀ n, n ∈ executed → n ≠ N ∧ ¬ reachable (node_graph sim) N n) →
  ∃ r1 r2,
    step sim state executed (execute_action N payload) = Some r1
    ∧ step sim (updated_state r1) (executed_nodes r1)
           (rollback_action N (Some "full_downstream")) = Some r2
    ∧ updated_state r2 = state ∧ executed_nodes r2 = executed.
Proof.
  intros Hcover Hfree Hex.
  rewrite step_execute_eq by done. unfold step_execute. simpl.
  eexists. eexists. split; [done|]. simpl.
  rewrite step_rollback_eq by done. unfold step_rollback. simpl.
  split; [done|]. simpl.
  apply execute_undone; [|done| |].
  - intros f Hf. apply elem_of_clears_full_downstream. left. exists N.
    split; [by left|]. by apply Hcover.
  - apply elem_of_union. left. by apply elem_of_singleton.
  - intros n Hn. destruct (Hex n Hn) as [Hne Hreach].
    rewrite elem_of_union, elem_of_singleton, elem_of_downstream_nodes.
    naive_solver.
Qed.

Lemma execute_then_full_downstream_rollback_witness :
  ∃ r1 r2,
    step cyclic_sim {[ "keep" := VInt 2 ]} ["W"]
         (execute_action "X" (Some {[ "a" := VInt 1 ]})) = Some r1
    ∧ step cyclic_sim (updated_state r1) (executed_nodes r1)
           (rollback_action "X" (Some "full_downstream")) = Some r2
    ∧ updated_state r2 = {[ "keep" := VInt 2 ]} ∧ executed_nodes r2 = ["W"].
Proof.
  apply (execute_then_full_downstream_rollback cyclic_sim {[ "keep" := VInt 2 ]}
           ["W"] "X" (Some {[ "a" := VInt 1 ]})).
  - unfold clears_of_target. simpl. by rewrite lookup_empty.
  - intros f Hf.
    destruct (decide (f = "keep")) as [->|Hne]; [|by apply lookup_singleton_ne].
    refute_by_evaluation Hf.
  - intros n Hn. apply list_elem_of_singleton in Hn as ->.
    split; [discriminate|]. intros Hreach.
    assert ("W" ∈ _downstream_nodes cyclic_sim "X") as Hin.
    { apply elem_of_downstream_nodes. by split. }
    refute_by_evaluation Hin.
Defined.

(** X10: [full_downstream] reaches at least as far as [aggregate_only]:
    on the same state and history, every node [full_downstream] leaves in
    the history is left there by [aggregate_only], in the same order;
    and when the fields contributed by N and by each node reachable from
    N cover what that node produces, every state entry that survives
    [full_downstream] survives [aggregate_only]. *)
Theorem full_downstream_reaches_further sim state executed N :
  ∃ r_full r_agg,
    step sim state executed (rollback_action N (Some "full_downstream")) = Some r_full
    ∧ step sim state executed (rollback_action N (Some "aggregate_only")) = Some r_agg
    ∧ executed_nodes r_full `sublist_of` executed_nodes r_agg
    ∧ ((∀ D, D = N ∨ reachable (node_graph sim) N D →
             produces_of sim D ⊆ clears_of_target sim D) →
       updated_state r_full ⊆ updated_state r_agg).
Proof.
  rewrite !step_rollback_eq by done. unfold step_rollback. simpl.
  eexists. eexists. split; [done|]. split; [done|]. simpl. split.
  - unfold remove_nodes.
    rewrite <- (list_filter_filter_l
                  (λ n, n ∉ ({[N]} ∪ _downstream_nodes sim N : gset string))
                  (λ n, n ∉ ({[N]} ∪ filter (λ d, d ∈ _aggregate_nodes sim)
                                        (_downstream_nodes sim N) : gset string))).
    + apply sublist_filter.
    + intros n Hn. rewrite elem_of_union, elem_of_filter.
      rewrite elem_of_union in Hn. naive_solver.
  - intros Hcover. apply map_subseteq_spec. intros k v.
    rewrite !lookup_apply_clear. case_decide as Hfull; [done|].
    intros Hk. rewrite decide_False; [done|]. intros Hagg. apply Hfull.
    apply elem_of_clears_aggregate_only in Hagg.
    apply elem_of_clears_full_downstream.
    destruct Hagg as [Hf|[(d & Hd & _ & Hf)|Hf]]; [left|left|by right].
    + exists N. split; [by left|]. apply (Hcover N); [by left|done].
    + exists d. split; [by right|]. apply (Hcover d); [|done].
      right. by apply elem_of_downstream_nodes in Hd as [? _].
Qed.

Lemma full_downstream_reaches_further_witness :
  ∃ r_full r_agg,
    step cyclic_sim {[ "c" := VInt 2 ]} ["X"; "Y"; "Z"]
         (rollback_action "X" (Some "full_downstream")) = Some r_full
    ∧ step cyclic_sim {[ "c" := VInt 2 ]} ["X"; "Y"; "Z"]
           (rollback_action "X" (Some "aggregate_only")) = Some r_agg
    ∧ executed_nodes r_full `sublist_of` executed_nodes r_agg
    ∧ updated_state r_full ⊆ updated_state r_agg.
Proof.
  destruct (full_downstream_reaches_further cyclic_sim {[ "c" := VInt 2 ]}
              ["X"; "Y"; "Z"] "X") as (r_full & r_agg & H1 & H2 & H3 & H4).
  exists r_full, r_agg. split; [exact H1|]. split; [exact H2|].
  split; [exact H3|]. apply H4.
  intros D _. unfold clears_of_target. simpl. by rewrite lookup_empty.
Defined.

(** ** CLARIFY *)

Lemma insert_sorted_perm x l : insert_sorted x l ≡ₚ x :: l.
Proof.
  induction l as [|y l IH]; simpl; [done|].
  destruct (String.leb x y); [done|]. rewrite IH. apply Permutation_swap.
Qed.

Lemma py_sorted_perm l : py_sorted l ≡ₚ l.
Proof.
  induction l as [|x l IH]; simpl; [done|].
  rewrite insert_sorted_perm. by rewrite IH.
Qed.

Lemma insert_sorted_sorted x l :
  Sorted (λ a b, String.leb a b = true) l →
  Sorted (λ a b, String.leb a b = true) (insert_sorted x l).
Proof.
  induction l as [|y l IH]; intros Hs; simpl.
  - by repeat constructor.
  - destruct (String.leb x y) eqn:Hxy.
    + constructor; [done|]. by constructor.
    + apply Sorted_inv in Hs as [Hs Hhd].
      constructor; [by apply IH|].
      assert (String.leb y x = true) as Hyx.
      { destruct (String.leb_total x y) as [H|H]; [congruence|done]. }
      destruct l as [|z l]; simpl; [by constructor|].
      destruct (String.leb x z); constructor; [done|].
      by apply HdRel_inv in Hhd.
Qed.

Lemma py_sorted_sorted l : Sorted (λ a b, String.leb a b = true) (py_sorted l).
Proof.
  induction l as [|x l IH]; simpl; [constructor|].
  by apply insert_sorted_sorted.
Qed.

Lemma elem_of_sorted_set (s : gset string) x : x ∈ sorted_set s ↔ x ∈ s.
Proof. unfold sorted_set. by rewrite py_sorted_perm, elem_of_elements. Qed.

Lemma sorted_set_nodup (s : gset string) : NoDup (sorted_set s).
Proof. unfold sorted_set. rewrite py_sorted_perm. apply NoDup_elements. Qed.

Lemma mapM_strings (l : list string) :
  mapM (λ x, match x with VStr s => Some s | _ => None end) (map VStr l) = Some l.
Proof. induction l as [|x l IH]; simpl; [done|]. by rewrite IH. Qed.

(** What CLARIFY stores can be read back as the set it was built from. *)
Lemma pending_slots_stored (state : gmap string value) (s : gset string) :
  pending_slots (<["_pending_slots" := VList (map VStr (sorted_set s))]> state)
  = Some s.
Proof.
  unfold pending_slots. rewrite lookup_insert_eq, mapM_strings. simpl.
  f_equal. apply set_eq. intros x.
  by rewrite elem_of_list_to_set, elem_of_sorted_set.
Qed.

Lemma step_clarify_eq sim state executed a :
  a_type a = Some "CLARIFY" →
  step sim state executed a = step_clarify state executed a.
Proof. intros Ht. unfold step, type_is. by rewrite Ht. Qed.

(** X11: CLARIFY on a state whose pending slots read as the set P
    succeeds, leaves the history and every other key alone, and stores
    under [_pending_slots] a list of strings that is sorted, has no
    repetition and holds exactly the slot and the members of P; read back,
    it is the set P with the slot added. *)
Theorem clarify_stores_sorted_set sim state executed a slot P :
  a_type a = Some "CLARIFY" → a_slot a = Some slot →
  pending_slots state = Some P →
  ∃ r l,
    step sim state executed a = Some r
    ∧ ok r = true ∧ executed_nodes r = executed
    ∧ (∀ k, k ≠ "_pending_slots" → updated_state r !! k = state !! k)
    ∧ updated_state r !! "_pending_slots" = Some (VList (map VStr l))
    ∧ Sorted (λ x y, String.leb x y = true) l ∧ NoDup l
    ∧ (∀ x, x ∈ l ↔ x = slot ∨ x ∈ P)
    ∧ pending_slots (updated_state r) = Some ({[slot]} ∪ P).
Proof.
  intros Ht Hs HP. rewrite step_clarify_eq by done. unfold step_clarify.
  rewrite Hs, HP. simpl. eexists. exists (sorted_set ({[slot]} ∪ P)).
  split; [done|]. simpl. split; [done|]. split; [done|]. split.
  { intros k Hk. by rewrite lookup_insert_ne. }
  split; [by rewrite lookup_insert_eq|].
  split; [apply py_sorted_sorted|]. split; [apply sorted_set_nodup|]. split.
  - intros x. rewrite elem_of_sorted_set, elem_of_union, elem_of_singleton. done.
  - apply pending_slots_stored.
Qed.

Lemma clarify_stores_sorted_set_witness :
  ∃ r, step cyclic_sim {[ "_pending_slots" := VList [VStr "b"; VStr "a"] ]} ["X"]
            (clarify_action "a0") = Some r
       ∧ updated_state r
         = {[ "_pending_slots" := VList [VStr "a"; VStr "a0"; VStr "b"] ]}.
Proof.
  destruct (clarify_stores_sorted_set cyclic_sim
              {[ "_pending_slots" := VList [VStr "b"; VStr "a"] ]} ["X"]
              (clarify_action "a0") "a0" {[ "b"; "a" ]})
    as (r & l & Hr & _); [reflexivity..|].
  exists r. split; [exact Hr|].
  assert (step cyclic_sim {[ "_pending_slots" := VList [VStr "b"; VStr "a"] ]} ["X"]
               (clarify_action "a0")
          = Some {| ok := true;
                    updated_state :=
                      {[ "_pending_slots" := VList [VStr "a"; VStr "a0"; VStr "b"] ]};
                    executed_nodes := ["X"]; events := [ "CLARIFY a0" ] |})
    as Hrun by (vm_compute; reflexivity).
  rewrite Hrun in Hr. by injection Hr as <-.
Defined.

(** X12: the order of two CLARIFY actions does not matter, and asking for
    the same slot twice is the same as asking once: the resulting states
    are equal. *)
Theorem clarify_commutes sim state executed s1 s2 P :
  pending_slots state = Some P →
  ∃ r1 r12 r2 r21 r11,
    step sim state executed (clarify_action s1) = Some r1
    ∧ step sim (updated_state r1) (executed_nodes r1) (clarify_action s2) = Some r12
    ∧ step sim state executed (clarify_action s2) = Some r2
    ∧ step sim (updated_state r2) (executed_nodes r2) (clarify_action s1) = Some r21
    ∧ step sim (updated_state r1) (executed_nodes r1) (clarify_action s1) = Some r11
    ∧ updated_state r12 = updated_state r21
    ∧ updated_state r11 = updated_state r1.
Proof.
  intros HP.
  assert (∀ st ex s Q, pending_slots st = Some Q →
            step sim st ex (clarify_action s)
            = Some {| ok := true;
                      updated_state :=
                        <["_pending_slots" :=
                            VList (map VStr (sorted_set ({[s]} ∪ Q)))]> st;
                      executed_nodes := ex;
                      events := [ "CLARIFY " +:+ s ] |}) as Hstep.
  { intros st ex s Q HQ. rewrite step_clarify_eq by done.
    unfold step_clarify. simpl. by rewrite HQ. }
  eexists _, _, _, _, _.
  split; [by apply Hstep|]. simpl.
  split; [apply Hstep, pending_slots_stored|].
  split; [by apply Hstep|]. simpl.
  split; [apply Hstep, pending_slots_stored|].
  split; [apply Hstep, pending_slots_stored|]. simpl.
  rewrite !insert_insert_eq. split.
  - assert (({[s2]} ∪ ({[s1]} ∪ P) : gset string) = {[s1]} ∪ ({[s2]} ∪ P))
      as -> by set_solver.
    done.
  - assert (({[s1]} ∪ ({[s1]} ∪ P) : gset string) = {[s1]} ∪ P)
      as -> by set_solver.
    done.
Qed.

Lemma clarify_commutes_witness :
  pending_slots (∅ : gmap string value) = Some ∅
  ∧ ∃ r1 r12 r2 r21,
      step cyclic_sim ∅ [] (clarify_action "b") = Some r1
      ∧ step cyclic_sim (updated_state r1) (executed_nodes r1)
             (clarify_action "a") = Some r12
      ∧ step cyclic_sim ∅ [] (clarify_action "a") = Some r2
      ∧ step cyclic_sim (updated_state r2) (executed_nodes r2)
             (clarify_action "b") = Some r21
      ∧ updated_state r12 = updated_state r21.
Proof.
  assert (pending_slots (∅ : gmap string value) = Some ∅) as Hempty
    by reflexivity.
  split; [exact Hempty|].
  destruct (clarify_commutes cyclic_sim ∅ [] "b" "a" ∅ Hempty)
    as (r1 & r12 & r2 & r21 & _ & H1 & H2 & H3 & H4 & _ & H5 & _).
  exists r1, r12, r2, r21. by repeat split.
Defined.

(** * Further properties of the readiness gates *)

Lemma report_gate_implies_grading_gate_witness :
  passed (validate_node_ready "VIS_REPORT"
            {[ "state.tirads_label" := VStr "TR5";
               "reports.conclusion_text" := VStr "suspicious";
               "reports.follow_up_plan" := VStr "FNA" ]}) = true
  ∧ passed (validate_node_ready "TI-RADS"
              {[ "state.tirads_label" := VStr "TR5";
                 "reports.conclusion_text" := VStr "suspicious";
                 "reports.follow_up_plan" := VStr "FNA" ]}) = true.
Proof.
  assert (passed (validate_node_ready "VIS_REPORT"
                    {[ "state.tirads_label" := VStr "TR5";
                       "reports.conclusion_text" := VStr "suspicious";
                       "reports.follow_up_plan" := VStr "FNA" ]}) = true) as Hvis
    by (vm_compute; reflexivity).
  split; [exact Hvis|].
  exact (report_gate_implies_grading_gate _ Hvis).
Defined.

(** X14: the grading gate passes exactly when there is no nodule, or an
    overall score or label is present, or some nodule carries a grade. *)
Theorem grading_gate_passes_iff state :
  passed (validate_node_ready "TI-RADS" state) = true
  ↔ _is_no_nodule state = true
    ∨ _present state "state.tirads_score" = true
    ∨ _present state "state.tirads_label" = true
    ∨ _has_per_nodule_tirads state = true.
Proof.
  rewrite passed_iff_no_errors.
  unfold validate_node_ready. cbn [String.eqb Ascii.eqb Bool.eqb].
  destruct (_is_no_nodule state); cbn [errors]; [naive_solver|].
  destruct (_present state "state.tirads_score"),
           (_present state "state.tirads_label"),
           (_has_per_nodule_tirads state); simpl; naive_solver.
Qed.

(** X15: the report gate passes exactly when the conclusion text and the
    recommendation are present, there is no nodule or some grading
    evidence (overall score, overall label or a graded nodule), and
    neither exclusive pair (benign/malignant conclusion, hyper/hypo
    function) has both of its fields present. *)
Theorem report_gate_passes_iff state :
  passed (validate_node_ready "VIS_REPORT" state) = true
  ↔ _present state "state.conclusion_text" = true
    ∧ _present state "state.recommendation" = true
    ∧ (_is_no_nodule state = true
       ∨ _present state "state.tirads_score" = true
       ∨ _present state "state.tirads_label" = true
       ∨ _has_per_nodule_tirads state = true)
    ∧ ¬ (_present state "state.conclusion_benign" = true
         ∧ _present state "state.conclusion_malignant" = true)
    ∧ ¬ (_present state "state.func_hyper" = true
         ∧ _present state "state.func_hypo" = true).
Proof.
  rewrite passed_iff_no_errors.
  unfold validate_node_ready. cbn [String.eqb Ascii.eqb Bool.eqb].
  unfold validate_state_for_report. cbn [errors].
  unfold REQUIRED_FOR_REPORT, MUTEX_GROUPS. cbn [map concat].
  rewrite !app_nil, !filter_cons, !filter_nil.
  assert (∀ A1 A2 A3 A4 c r e b f : Prop,
            (A1 ↔ c ∧ r) → (A2 ↔ e) → (A3 ↔ b) → (A4 ↔ f) →
            (A1 ∧ A2 ∧ A3 ∧ A4 ↔ c ∧ r ∧ e ∧ b ∧ f)) as Hparts by tauto.
  apply Hparts.
  - destruct (_present state "state.conclusion_text"),
             (_present state "state.recommendation"); simpl;
      (split; [intros H; try discriminate H|]); intuition discriminate.
  - destruct (_is_no_nodule state),
             (_present state "state.tirads_score"),
             (_present state "state.tirads_label"),
             (_has_per_nodule_tirads state); simpl;
      (split; [intros H; try discriminate H|]); intuition discriminate.
  - destruct (_present state "state.conclusion_benign"),
             (_present state "state.conclusion_malignant"); simpl;
      (split; [intros H; try discriminate H|]); intuition discriminate.
  - destruct (_present state "state.func_hyper"),
             (_present state "state.func_hypo"); simpl;
      (split; [intros [H _]; try discriminate H|]); intuition discriminate.
Qed.

Lemma order_get_keys key r :
  order_get _TIRADS_ORDER key = Some r →
  (1 ≤ r ≤ 7)%Z
  ∧ rank_key (list_ascii_of_string key) = Some key.
Proof.
  unfold _TIRADS_ORDER. cbn [order_get].
  repeat (destruct (String.eqb _ key) eqn:Heq;
          [apply String.eqb_eq in Heq; subst key; intros [= <-];
           split; [lia|reflexivity]
          |clear Heq]).
  discriminate.
Qed.

(** X16: [_rank] grades only strings that match its pattern, and every
    grade lies between 1 and 7: the closing table lookup on the raw
    string, tried when the pattern does not match, never succeeds,
    because every key of the table matches the pattern. *)
Theorem rank_only_on_pattern val r :
  _rank val = Some r →
  (1 ≤ r ≤ 7)%Z
  ∧ ∃ key, rank_key (py_strip (py_upper (list_ascii_of_string val))) = Some key
           ∧ order_get _TIRADS_ORDER key = Some r.
Proof.
  unfold _rank.
  destruct (rank_key (py_strip (py_upper (list_ascii_of_string val))))
    as [key|] eqn:Hkey.
  - intros Hr. split; [by apply (order_get_keys key)|]. by exists key.
  - intros Hr. apply order_get_keys in Hr as [_ Hmatch].
    rewrite list_ascii_of_string_of_list_ascii in Hmatch. congruence.
Qed.

Lemma rank_only_on_pattern_witness :
  _rank "tirads 4c" = Some 6%Z
  ∧ ∃ key, rank_key (py_strip (py_upper (list_ascii_of_string "tirads 4c")))
           = Some key
           ∧ order_get _TIRADS_ORDER key = Some 6%Z.
Proof.
  assert (_rank "tirads 4c" = Some 6%Z) as Hr by reflexivity.
  split; [exact Hr|]. exact (proj2 (rank_only_on_pattern _ _ Hr)).
Defined.

Lemma upper_char_idempotent c : upper_char (upper_char c) = upper_char c.
Proof. destruct c as [[] [] [] [] [] [] [] []]; reflexivity. Qed.

Lemma py_upper_idempotent l : py_upper (py_upper l) = py_upper l.
Proof.
  unfold py_upper. induction l as [|c l IH]; simpl; [done|].
  by rewrite upper_char_idempotent, IH.
Qed.

(** X17: [_rank] ignores letter case: a string and its upper-cased form
    get the same grade. *)
Theorem rank_ignores_case val :
  _rank (string_of_list_ascii (py_upper (list_ascii_of_string val))) = _rank val.
Proof.
  unfold _rank.
  by rewrite list_ascii_of_string_of_list_ascii, py_upper_idempotent.
Qed.

(** X18: the placeholder EXECUTE writes hides aliases.  When EXECUTE runs
    a node that produces a field the state does not hold and the payload
    does not supply, the field is stored as [None]; from then on the
    alias-aware lookup of that field answers [None] and the field counts
    as not present, whatever the alternate names hold. *)
Theorem execute_placeholder_hides_aliases sim state executed a N f :
  a_type a = Some "EXECUTE" → a_node a = Some N →
  f ∈ produces_of sim N → state !! f = None →
  default ∅ (a_payload a) !! f = None →
  ∃ r, step sim state executed a = Some r
       ∧ updated_state r !! f = Some VNone
       ∧ _get (updated_state r) f = VNone
       ∧ _present (updated_state r) f = false.
Proof.
  intros Ht Hn Hf Hst Hpay.
  rewrite step_execute_eq by done. unfold step_execute. rewrite Hn. simpl.
  eexists. split; [done|]. simpl.
  assert (set_fold (write_field (default ∅ (a_payload a))) state (_write_set sim N)
            !! f = Some VNone) as Hlook.
  { rewrite lookup_write_fields. unfold _write_set. rewrite decide_True by done.
    unfold written_value, state_get. by rewrite Hpay, Hst. }
  split; [done|]. unfold _present, _get, get_with. by rewrite Hlook.
Qed.

Lemma execute_placeholder_hides_aliases_witness :
  _present {[ "ti_rads_score" := VStr "5" ]} "state.tirads_score" = true
  ∧ ∃ r, step grading_sim {[ "ti_rads_score" := VStr "5" ]} []
              (execute_action "TI-RADS" None) = Some r
         ∧ _present (updated_state r) "state.tirads_score" = false.
Proof.
  split; [reflexivity|].
  destruct (execute_placeholder_hides_aliases grading_sim
              {[ "ti_rads_score" := VStr "5" ]} []
              (execute_action "TI-RADS" None) "TI-RADS" "state.tirads_score")
    as (r & Hr & _ & _ & Hp); [reflexivity..| | | |].
  - assert (produces_of grading_sim "TI-RADS" = {[ "state.tirads_score" ]})
      as -> by reflexivity.
    by apply elem_of_singleton.
  - reflexivity.
  - reflexivity.
  - exists r. by split.
Defined.

(** X19: GENERATE_REPORT on a state in which neither the conclusion text
    nor the recommendation is present fails, changes nothing, opens its
    events with the summary line and lists one error for each of the two
    missing fields. *)
Theorem generate_report_missing_minimals sim state executed a :
  a_type a = Some "GENERATE_REPORT" →
  _present state "state.conclusion_text" = false →
  _present state "state.recommendation" = false →
  ∃ r, step sim state executed a = Some r
       ∧ ok r = false
       ∧ updated_state r = state ∧ executed_nodes r = executed
       ∧ head (events r) = Some "GENERATE_REPORT validated: passed=False"
       ∧ "ERROR: VIS_REPORT: Missing required: state.conclusion_text" ∈ events r
       ∧ "ERROR: VIS_REPORT: Missing required: state.recommendation" ∈ events r.
Proof.
  intros Ht Hc Hr.
  assert (step sim state executed a = step_generate_report state executed) as ->.
  { unfold step, type_is. by rewrite Ht. }
  unfold step_generate_report. eexists. split; [reflexivity|].
  cbn [ok updated_state executed_nodes events].
  assert (∃ rest, errors (validate_node_ready "VIS_REPORT" state)
                  = "Missing required: state.conclusion_text"
                    :: "Missing required: state.recommendation" :: rest)
    as [rest Herr].
  { unfold validate_node_ready. cbn [String.eqb Ascii.eqb Bool.eqb].
    unfold validate_state_for_report. cbn [errors].
    unfold REQUIRED_FOR_REPORT. rewrite !filter_cons, filter_nil, Hc, Hr.
    simpl. by eexists. }
  assert (passed (validate_node_ready "VIS_REPORT" state) = false) as Hfail.
  { apply not_true_is_false. rewrite passed_iff_no_errors. by rewrite Herr. }
  rewrite Hfail, andb_false_r, Herr.
  split; [done|]. split; [done|]. split; [done|]. split; [done|].
  split.
  - apply elem_of_cons. right. apply elem_of_app. left.
    apply list_elem_of_fmap. eexists. split; [reflexivity|].
    apply elem_of_app. right. apply elem_of_cons. by left.
  - apply elem_of_cons. right. apply elem_of_app. left.
    apply list_elem_of_fmap. eexists. split; [reflexivity|].
    apply elem_of_app. right. apply elem_of_cons. right.
    apply elem_of_cons. by left.
Qed.

Lemma generate_report_missing_minimals_witness :
  ∃ r, step cyclic_sim ∅ [] generate_report_action = Some r
       ∧ ok r = false
       ∧ "ERROR: VIS_REPORT: Missing required: state.conclusion_text" ∈ events r.
Proof.
  destruct (generate_report_missing_minimals cyclic_sim ∅ [] generate_report_action)
    as (r & Hr & Hok & _ & _ & _ & Hc & _); [reflexivity..|].
  exists r. by repeat split.
Defined.

(** * Properties of the configuration checks *)

(** ** [build_reachability] *)

Lemma pending_edges_insert (g : gmap string (list string)) i x seen :
  g !! i = None →
  pending_edges (<[i:=x]> g) seen
  = ((if decide (i ∈ seen) then 0 else length x) + pending_edges g seen)%nat.
Proof.
  intros Hi. unfold pending_edges.
  rewrite map_fold_insert_L; [done| |done].
  intros j1 j2 z1 z2 y _ _ _. lia.
Qed.

Lemma successors_insert (g : gmap string (list string)) i x u :
  successors (<[i:=x]> g) u = if decide (i = u) then x else successors g u.
Proof.
  unfold successors. case_decide as Hiu.
  - subst. by rewrite lookup_insert_eq.
  - by rewrite lookup_insert_ne.
Qed.

(** Seeing a node takes its outgoing edges out of the pending ones. *)
Lemma pending_edges_see (g : gmap string (list string)) u seen :
  u ∉ seen →
  (pending_edges g ({[u]} ∪ seen) + length (successors g u)
   ≤ pending_edges g seen)%nat.
Proof.
  intros Hu. induction g as [|i x m Hi IH] using map_ind.
  - unfold pending_edges, successors. rewrite !map_fold_empty, lookup_empty.
    simpl. lia.
  - rewrite !pending_edges_insert, successors_insert by done.
    destruct (decide (i = u)) as [->|Hne].
    + rewrite decide_True by set_solver. rewrite decide_False by done. lia.
    + destruct (decide (i ∈ seen)) as [Hin|Hout].
      * rewrite decide_True by set_solver. lia.
      * rewrite decide_False by set_solver. lia.
Qed.

Section Reachability.
Variable g : gmap string (list string).

Lemma reach_loop_terminates fuel seen dq :
  (length dq + pending_edges g seen ≤ fuel)%nat →
  is_Some (reach_loop fuel g seen dq).
Proof.
  revert seen dq. induction fuel as [|fuel IH]; intros seen dq Hm.
  - destruct dq as [|u rest]; simpl in *; [eauto|lia].
  - destruct dq as [|u rest]; simpl in *; [eauto|].
    case_decide as Hu; [apply IH; lia|].
    apply IH. rewrite length_app.
    pose proof (pending_edges_see g u seen Hu) as Hsee.
    pose proof (length_filter (λ v, v ∉ ({[u]} ∪ seen : gset string))
                  (successors g u)) as Hlen.
    lia.
Qed.

Lemma reach_loop_more_fuel fuel fuel' seen dq r :
  reach_loop fuel g seen dq = Some r → (fuel ≤ fuel')%nat →
  reach_loop fuel' g seen dq = Some r.
Proof.
  revert fuel' seen dq. induction fuel as [|fuel IH]; intros fuel' seen dq Hr Hle.
  - destruct dq; simpl in *; [|done]. by destruct fuel'.
  - destruct dq as [|u rest]; simpl in *; [by destruct fuel'|].
    destruct fuel' as [|fuel']; [lia|]. simpl.
    case_decide; apply IH; (done || lia).
Qed.

Lemma reach_inv_init src : reach_inv g src ∅ (successors g src).
Proof.
  split; [|split; [|split]].
  - intros x Hx. by apply not_elem_of_empty in Hx.
  - intros x Hx. by apply tc_once.
  - intros y Hy. by right.
  - intros x y Hx. by apply not_elem_of_empty in Hx.
Qed.

Lemma reach_inv_skip src seen u rest :
  u ∈ seen → reach_inv g src seen (u :: rest) → reach_inv g src seen rest.
Proof.
  intros Hu (Hseen & Hdq & Hsrc & Hcl). split; [done|split; [|split]].
  - intros x Hx. apply Hdq. by right.
  - intros y Hy. destruct (Hsrc y Hy) as [?|Hin]; [by left|].
    apply elem_of_cons in Hin as [->|?]; [by left|by right].
  - intros x y Hx Hy. destruct (Hcl x y Hx Hy) as [?|Hin]; [by left|].
    apply elem_of_cons in Hin as [->|?]; [by left|by right].
Qed.

Lemma reach_inv_visit src seen u rest :
  u ∉ seen → reach_inv g src seen (u :: rest) →
  reach_inv g src ({[u]} ∪ seen)
    (rest ++ filter (λ v, v ∉ ({[u]} ∪ seen : gset string)) (successors g u)).
Proof.
  intros Hu (Hseen & Hdq & Hsrc & Hcl).
  assert (reachable g src u) as Hru by (apply Hdq; by left).
  assert (∀ y, y ∈ seen ∨ y ∈ u :: rest →
               y ∈ ({[u]} ∪ seen : gset string)
               ∨ y ∈ (rest ++ filter (λ v, v ∉ ({[u]} ∪ seen : gset string))
                                     (successors g u))%list) as Hkeep.
  { intros y [Hy|Hy]; [left; set_solver|].
    apply elem_of_cons in Hy as [->|Hy]; [left; set_solver|].
    right. apply elem_of_app. by left. }
  split; [|split; [|split]].
  - intros x Hx. apply elem_of_union in Hx as [Hx|Hx]; [|by apply Hseen].
    apply elem_of_singleton in Hx. by subst.
  - intros x Hx. apply elem_of_app in Hx as [Hx|Hx]; [apply Hdq; by right|].
    apply list_elem_of_filter in Hx as [_ Hx]. by eapply tc_r.
  - intros y Hy. by apply Hkeep, Hsrc.
  - intros x y Hx Hy. apply elem_of_union in Hx as [Hx|Hx].
    + apply elem_of_singleton in Hx. subst x.
      destruct (decide (y ∈ ({[u]} ∪ seen : gset string))); [by left|right].
      apply elem_of_app. right. by apply list_elem_of_filter.
    + by apply Hkeep, (Hcl x).
Qed.

Lemma reach_inv_done src seen x :
  reach_inv g src seen [] → x ∈ seen ↔ reachable g src x.
Proof.
  intros (Hseen & _ & Hsrc & Hcl). split; [apply Hseen|].
  intros Hx. eapply (tc_ind_r (λ z, z ∈ seen) src); [| |exact Hx].
  - intros z Hz. destruct (Hsrc z Hz) as [?|Hin]; [done|].
    by apply elem_of_nil in Hin.
  - intros y z _ Hyz Hy. destruct (Hcl y z Hy Hyz) as [?|Hin]; [done|].
    by apply elem_of_nil in Hin.
Qed.

Lemma reach_loop_reachable src fuel seen dq r :
  reach_inv g src seen dq → reach_loop fuel g seen dq = Some r →
  ∀ x, x ∈ r ↔ reachable g src x.
Proof.
  revert seen dq. induction fuel as [|fuel IH]; intros seen dq Hinv Hr x;
    destruct dq as [|u rest]; simpl in Hr; try done.
  - injection Hr as <-. by apply reach_inv_done.
  - injection Hr as <-. by apply reach_inv_done.
  - case_decide as Hu.
    + eapply IH; [|exact Hr]. by eapply reach_inv_skip.
    + eapply IH; [|exact Hr]. by apply reach_inv_visit.
Qed.

(** The fuel [reach_fuel] is enough, and so is any larger one. *)
Lemma reach_loop_enough src fuel :
  (reach_fuel g src ≤ fuel)%nat →
  reach_loop fuel g ∅ (successors g src) = Some (reach_from g src)
  ∧ ∀ x, x ∈ reach_from g src ↔ reachable g src x.
Proof.
  intros Hfuel. unfold reach_from.
  destruct (reach_loop_terminates (reach_fuel g src) ∅ (successors g src))
    as [r Hr]; [done|].
  rewrite Hr. simpl. split; [by eapply reach_loop_more_fuel|].
  eapply reach_loop_reachable; [apply reach_inv_init|exact Hr].
Qed.
End Reachability.

Lemma lookup_build_reachability nodes g src :
  build_reachability nodes g !! src
  = if decide (src ∈ nodes) then Some (reach_from g src) else None.
Proof.
  unfold build_reachability. case_decide as Hsrc.
  - apply lookup_set_to_map; [naive_solver|]. by exists src.
  - apply eq_None_not_Some. intros [r Hr].
    apply lookup_set_to_map in Hr as (y & Hy & Heq); [|naive_solver].
    injection Heq as -> _. done.
Qed.

(** For a defined source: the stored set, the simulator's downstream
    set and reachability. *)
Lemma build_reachability_downstream sim nodes src :
  src ∈ nodes →
  ∃ R, build_reachability nodes (node_graph sim) !! src = Some R
       ∧ _downstream_nodes sim src = R ∖ {[src]}
       ∧ ∀ x, x ∈ R ↔ reachable (node_graph sim) src x.
Proof.
  intros Hsrc. exists (reach_from (node_graph sim) src).
  rewrite lookup_build_reachability, decide_True by done.
  destruct (reach_loop_enough (node_graph sim) src
              (reach_fuel (node_graph sim) src)) as [_ Hspec]; [done|].
  split; [done|]. split; [|done].
  apply set_eq. intros x.
  rewrite elem_of_downstream_nodes, elem_of_difference, elem_of_singleton.
  by rewrite Hspec.
Qed.

(** X20: for every defined node, on any graph (cyclic or not), the loop
    of [build_reachability] ends within [reach_fuel] iterations, and the
    set stored for the node holds exactly the nodes reachable from it
    along at least one edge. *)
Theorem build_reachability_reaches nodes g src fuel :
  src ∈ nodes → (reach_fuel g src ≤ fuel)%nat →
  ∃ R, build_reachability nodes g !! src = Some R
       ∧ reach_loop fuel g ∅ (successors g src) = Some R
       ∧ ∀ x, x ∈ R ↔ reachable g src x.
Proof.
  intros Hsrc Hfuel. exists (reach_from g src).
  rewrite lookup_build_reachability, decide_True by done.
  split; [done|]. by apply reach_loop_enough.
Qed.

Lemma build_reachability_reaches_witness :
  ∃ R, build_reachability {[ "X"; "Y"; "Z" ]} (node_graph cyclic_sim) !! "Y" = Some R
       ∧ reach_loop 6 (node_graph cyclic_sim) ∅
           (successors (node_graph cyclic_sim) "Y") = Some R
       ∧ R = {[ "X"; "Y"; "Z" ]}.
Proof.
  destruct (build_reachability_reaches {[ "X"; "Y"; "Z" ]}
              (node_graph cyclic_sim) "Y" 6) as (R & H1 & H2 & _).
  - set_solver.
  - vm_compute. lia.
  - exists R. split; [exact H1|]. split; [exact H2|].
    assert (reach_loop 6 (node_graph cyclic_sim) ∅
              (successors (node_graph cyclic_sim) "Y")
            = Some {[ "X"; "Y"; "Z" ]}) as Hrun by (vm_compute; reflexivity).
    rewrite Hrun in H2. by injection H2 as <-.
Defined.

(** X21: the script's reachability and the simulator's downstream set
    differ at most by the source itself.  The simulator's set is the
    script's set without the source; the script's set holds the source
    exactly when the source lies on a cycle, so the two are equal for
    every source that cannot reach itself. *)
Theorem reachability_vs_downstream sim nodes src :
  src ∈ nodes →
  ∃ R, build_reachability nodes (node_graph sim) !! src = Some R
       ∧ _downstream_nodes sim src = R ∖ {[src]}
       ∧ (src ∈ R ↔ reachable (node_graph sim) src src)
       ∧ (¬ reachable (node_graph sim) src src → R = _downstream_nodes sim src).
Proof.
  intros Hsrc.
  destruct (build_reachability_downstream sim nodes src Hsrc)
    as (R & HR & Hdown & Hspec).
  exists R. split; [done|].
  split; [done|]. split; [apply Hspec|].
  intros Hacyclic. rewrite Hdown. apply set_eq. intros x.
  rewrite elem_of_difference, elem_of_singleton. split; [|naive_solver].
  intros Hx. split; [done|]. intros ->. by apply Hacyclic, Hspec.
Qed.

Lemma reachability_vs_downstream_witness :
  ∃ R, build_reachability {[ "X"; "Y"; "Z" ]} (node_graph cyclic_sim) !! "X" = Some R
       ∧ _downstream_nodes cyclic_sim "X" = R ∖ {[ "X" ]}
       ∧ "X" ∈ R.
Proof.
  destruct (reachability_vs_downstream cyclic_sim {[ "X"; "Y"; "Z" ]} "X")
    as (R & H1 & H2 & H3 & _); [set_solver|].
  exists R. split; [exact H1|]. split; [exact H2|].
  apply H3. eapply tc_l; [|eapply tc_l; [|apply tc_once]]; unfold edge.
  - assert (successors (node_graph cyclic_sim) "X" = ["Y"; "Z"]) as ->
      by (vm_compute; reflexivity).
    apply elem_of_cons. by left.
  - assert (successors (node_graph cyclic_sim) "Y" = ["Z"]) as ->
      by (vm_compute; reflexivity).
    apply elem_of_cons. by left.
  - assert (successors (node_graph cyclic_sim) "Z" = ["X"]) as ->
      by (vm_compute; reflexivity).
    apply elem_of_cons. by left.
Defined.

(** ** Required clear sets against the simulator's clear sets *)

Lemma elem_of_full_downstream_required node reach produces_map reports_fixed f :
  f ∈ compute_full_downstream_required node reach produces_map reports_fixed
  ↔ f ∈ default ∅ (produces_map !! node)
    ∨ (∃ d, d ∈ default ∅ (reach !! node) ∧ f ∈ default ∅ (produces_map !! d))
    ∨ f ∈ reports_fixed.
Proof.
  unfold compute_full_downstream_required. rewrite elem_of_union.
  rewrite (set_fold_collect _ (λ d, default ∅ (produces_map !! d)))
    by set_solver.
  naive_solver.
Qed.

Lemma elem_of_aggregate_only_required node reach produces_map agg reports_fixed f :
  f ∈ compute_aggregate_only_required node reach produces_map agg reports_fixed
  ↔ f ∈ default ∅ (produces_map !! node)
    ∨ (∃ d, d ∈ default ∅ (reach !! node) ∧ d ∈ agg
            ∧ f ∈ default ∅ (produces_map !! d))
    ∨ f ∈ reports_fixed.
Proof.
  unfold compute_aggregate_only_required. rewrite elem_of_union.
  rewrite (set_fold_collect _
             (λ d, if decide (d ∈ agg)
                   then default ∅ (produces_map !! d) else ∅)).
  - split.
    + intros [[?|(d & ? & Hd)]|?]; [by left| |by right; right].
      case_decide; [|set_solver]. right. left. by exists d.
    + intros [?|[(d & ? & ? & ?)|?]]; [by left; left| |by right].
      left. right. exists d. split; [done|]. by rewrite decide_True.
  - intros n acc x. case_decide; set_solver.
Qed.

(** X22: for every defined node, the clear set the script simulates for
    [aggregate_only] is the clear set the simulator computes, on any
    graph. *)
Theorem aggregate_only_required_agrees sim nodes N :
  N ∈ nodes →
  compute_aggregate_only_required N
    (build_reachability nodes (node_graph sim)) (_produces sim)
    (_aggregate_nodes sim) (_reports_fixed sim)
  = _clears_aggregate_only sim N.
Proof.
  intros HN.
  destruct (build_reachability_downstream sim nodes N HN) as (R & HR & Hdown & _).
  apply set_eq. intros f.
  rewrite elem_of_aggregate_only_required, elem_of_clears_aggregate_only.
  rewrite HR, Hdown. simpl. fold (produces_of sim N). split.
  - intros [?|[(d & Hd & Hagg & Hf)|?]]; [by left| |by right; right].
    destruct (decide (d = N)) as [->|Hne]; [by left|].
    right. left. exists d. split; [set_solver|done].
  - intros [?|[(d & Hd & Hagg & Hf)|?]]; [by left| |by right; right].
    right. left. exists d. split; [set_solver|done].
Qed.

Lemma aggregate_only_required_agrees_witness :
  compute_aggregate_only_required "X"
    (build_reachability {[ "X"; "Y"; "Z" ]} (node_graph cyclic_sim))
    (_produces cyclic_sim) (_aggregate_nodes cyclic_sim)
    (_reports_fixed cyclic_sim)
  = _clears_aggregate_only cyclic_sim "X".
Proof.
  apply (aggregate_only_required_agrees cyclic_sim {[ "X"; "Y"; "Z" ]} "X").
  set_solver.
Defined.

Lemma missing_full_empty nodes reach produces_map reports_fixed clears_map :
  missing_full nodes reach produces_map reports_fixed clears_map = ∅
  ↔ ∀ n, n ∈ nodes →
         compute_full_downstream_required n reach produces_map reports_fixed
         ⊆ default ∅ (clears_map !! n).
Proof.
  unfold missing_full.
  pose (P := λ (acc : gmap string (list string)) (X : gset string),
               acc = ∅
               ↔ ∀ n, n ∈ X →
                      compute_full_downstream_required n reach produces_map
                        reports_fixed
                      ⊆ default ∅ (clears_map !! n)).
  match goal with |- ?lhs = ∅ ↔ _ => change (P lhs nodes) end.
  apply set_fold_ind_L; unfold P.
  - split; [|done]. intros _ n Hn. by apply not_elem_of_empty in Hn.
  - intros n X acc Hn IH. simpl. case_decide as Hmiss.
    + rewrite IH. split.
      * intros HX m Hm. apply elem_of_union in Hm as [Hm|Hm]; [|by apply HX].
        apply elem_of_singleton in Hm. subst m.
        intros f Hf. destruct (decide (f ∈ default ∅ (clears_map !! n)));
          [done|].
        assert (f ∈ (∅ : gset string)) as Hin; [|by apply not_elem_of_empty in Hin].
        rewrite <- Hmiss. by apply elem_of_difference.
      * intros HX m Hm. apply HX. set_solver.
    + split.
      * intros Hempty. by apply insert_non_empty in Hempty.
      * intros HX. exfalso. apply Hmiss. apply set_eq. intros f.
        rewrite elem_of_difference. split; [|by intros ?%not_elem_of_empty].
        intros [Hf Hout]. exfalso. apply Hout. apply (HX n); [set_solver|done].
Qed.

(** What the simulator takes from a rule contains the node's produces
    set as soon as the rule map of the script does. *)
Lemma clears_of_target_covers sim raw D :
  _rule_clears sim = simulator_rule <$> raw →
  produces_of sim D ⊆ default ∅ (normalize_rules_clears raw !! D)
  ∨ produces_of sim D = ∅ →
  produces_of sim D ⊆ clears_of_target sim D.
Proof.
  intros Hrules Hcov. unfold clears_of_target. rewrite Hrules, lookup_fmap.
  unfold normalize_rules_clears in Hcov. rewrite lookup_fmap in Hcov.
  destruct (raw !! D) as [[[[|c cs]|] rs]|]; simpl in *; try done.
  destruct Hcov as [?| ->]; [done|]. set_solver.
Qed.

(** X23: check (b) of the script is sound for the simulator.  When the
    rule table the simulator reads is the one the script normalises, the
    defined nodes include every node of the registry, and the check finds
    no gap, then for every defined node N the clear set the simulator
    computes for [full_downstream] contains the required set of the
    script, and in particular produces(D) for every D that is N or
    reachable from N. *)
Theorem full_downstream_check_sound sim raw nodes N :
  _rule_clears sim = simulator_rule <$> raw →
  dom (_produces sim) ⊆ nodes →
  missing_full nodes (build_reachability nodes (node_graph sim))
    (_produces sim) (_reports_fixed sim) (normalize_rules_clears raw) = ∅ →
  N ∈ nodes →
  compute_full_downstream_required N
    (build_reachability nodes (node_graph sim)) (_produces sim)
    (_reports_fixed sim)
  ⊆ _clears_full_downstream sim N
  ∧ ∀ D, D = N ∨ reachable (node_graph sim) N D →
         produces_of sim D ⊆ _clears_full_downstream sim N.
Proof.
  intros Hrules Hdom Hcheck HN.
  rewrite missing_full_empty in Hcheck.
  assert (∀ D, produces_of sim D ⊆ clears_of_target sim D) as Hcover.
  { intros D. apply (clears_of_target_covers sim raw D Hrules).
    destruct (decide (D ∈ nodes)) as [HD|HD].
    - left. etrans; [|by apply Hcheck]. intros f Hf.
      apply elem_of_full_downstream_required. by left.
    - right. unfold produces_of.
      destruct (_produces sim !! D) eqn:HpD; [|done].
      exfalso. apply HD, Hdom, elem_of_dom. by eexists. }
  assert (∀ D, D = N ∨ reachable (node_graph sim) N D →
               produces_of sim D ⊆ _clears_full_downstream sim N) as Hsup.
  { intros D HD. etrans; [apply Hcover|]. intros f Hf.
    apply elem_of_clears_full_downstream. left. exists D. split; [|done].
    destruct (decide (D = N)) as [->|Hne]; [by left|right].
    apply elem_of_downstream_nodes. naive_solver. }
  split; [|done].
  destruct (build_reachability_downstream sim nodes N HN) as (R & HR & _ & Hspec).
  intros f. rewrite elem_of_full_downstream_required, HR. simpl.
  intros [Hf|[(d & Hd & Hf)|Hf]].
  - apply (Hsup N); [by left|done].
  - apply (Hsup d); [|done]. right. by apply Hspec.
  - apply elem_of_clears_full_downstream. by right.
Qed.

Lemma full_downstream_check_sound_witness :
  missing_full {[ "A"; "B" ]}
    (build_reachability {[ "A"; "B" ]} (node_graph covered_sim))
    (_produces covered_sim) (_reports_fixed covered_sim)
    (normalize_rules_clears covered_rules) = ∅
  ∧ produces_of covered_sim "B" ⊆ _clears_full_downstream covered_sim "A".
Proof.
  assert (missing_full {[ "A"; "B" ]}
            (build_reachability {[ "A"; "B" ]} (node_graph covered_sim))
            (_produces covered_sim) (_reports_fixed covered_sim)
            (normalize_rules_clears covered_rules) = ∅) as Hcheck
    by (vm_compute; reflexivity).
  split; [exact Hcheck|].
  destruct (full_downstream_check_sound covered_sim covered_rules {[ "A"; "B" ]} "A")
    as [_ Hsup]; [reflexivity| |exact Hcheck|set_solver|].
  - assert (dom (_produces covered_sim) = {[ "A"; "B" ]}) as ->; [|done].
    unfold covered_sim. simpl. rewrite dom_insert_L, dom_singleton_L. done.
  - apply Hsup. right. apply tc_once. unfold edge.
    assert (successors (node_graph covered_sim) "A" = ["B"]) as ->
      by (vm_compute; reflexivity).
    apply elem_of_cons. by left.
Defined.

(** X24: when no rule of the table has a non-empty [clears] list, the
    clear set the simulator computes for [full_downstream] on a defined
    node is exactly the required set of the script. *)
Theorem full_downstream_required_agrees sim nodes N :
  (∀ n e, _rule_clears sim !! n = Some e → clears e = None ∨ clears e = Some []) →
  N ∈ nodes →
  _clears_full_downstream sim N
  = compute_full_downstream_required N
      (build_reachability nodes (node_graph sim)) (_produces sim)
      (_reports_fixed sim).
Proof.
  intros Hrules HN.
  assert (∀ n, clears_of_target sim n = produces_of sim n) as Hfloor.
  { intros n. unfold clears_of_target.
    destruct (_rule_clears sim !! n) as [e|] eqn:He; [|done].
    destruct (Hrules n e He) as [Hc|Hc]; destruct e as [c]; simpl in Hc;
      by subst c. }
  destruct (build_reachability_downstream sim nodes N HN) as (R & HR & Hdown & _).
  apply set_eq. intros f.
  rewrite elem_of_full_downstream_required, elem_of_clears_full_downstream.
  rewrite HR, Hdown. simpl. fold (produces_of sim N). split.
  - intros [(n & [->|Hn] & Hf)|?]; [| |by right; right];
      rewrite Hfloor in Hf; [by left|].
    right. left. exists n. split; [set_solver|done].
  - intros [Hf|[(d & Hd & Hf)|?]]; [| |by right].
    + left. exists N. rewrite Hfloor. by split; [left|].
    + left. exists d. rewrite Hfloor. split; [|done].
      destruct (decide (d = N)) as [->|]; [by left|right]. set_solver.
Qed.

Lemma full_downstream_required_agrees_witness :
  _clears_full_downstream cyclic_sim "X"
  = compute_full_downstream_required "X"
      (build_reachability {[ "X"; "Y"; "Z" ]} (node_graph cyclic_sim))
      (_produces cyclic_sim) (_reports_fixed cyclic_sim).
Proof.
  apply (full_downstream_required_agrees cyclic_sim {[ "X"; "Y"; "Z" ]} "X").
  - intros n e He. simpl in He. by rewrite lookup_empty in He.
  - set_solver.
Defined.

(** ** [collect_field_universe] *)

Lemma collect_node_spec node produces (po : gmap string string) errs :
  (∀ f, (collect_node node produces (po, errs)).1 !! f
        = if decide (f ∈ produces) then Some node else po !! f)
  ∧ ((collect_node node produces (po, errs)).2 = []
     ↔ errs = [] ∧ ∀ f, f ∈ produces → po !! f = None).
Proof.
  unfold collect_node.
  pose (P := λ (acc : gmap string string * list string) (Y : gset string),
               (∀ f, acc.1 !! f = if decide (f ∈ Y) then Some node else po !! f)
               ∧ (acc.2 = [] ↔ errs = [] ∧ ∀ f, f ∈ Y → po !! f = None)).
  assert (P (set_fold (note_field node) (po, errs)
               (list_to_set produces : gset string))
            (list_to_set produces)) as [Hlook Herrs].
  { apply set_fold_ind_L; unfold P.
    - split; [intros f; by rewrite decide_False by set_solver|].
      simpl. split; [intros ->; split; [done|set_solver]|by intros [-> _]].
    - intros x Y r Hx [Hlook Herrs]. simpl. split.
      + intros f. destruct (decide (f = x)) as [->|Hne].
        * rewrite lookup_insert_eq. by rewrite decide_True by set_solver.
        * rewrite lookup_insert_ne by done. rewrite Hlook.
          destruct (decide (f ∈ Y)).
          -- by rewrite decide_True by set_solver.
          -- by rewrite decide_False by set_solver.
      + rewrite Hlook, decide_False by done.
        destruct (po !! x) as [owner|] eqn:Hpx.
        * split; [intros Happ; by apply app_nil in Happ as [_ ?]|].
          intros [_ Hall]. rewrite Hall in Hpx by set_solver. done.
        * rewrite Herrs. split.
          -- intros [-> Hall]. split; [done|]. intros f Hf.
             apply elem_of_union in Hf as [Hf|Hf]; [|by apply Hall].
             apply elem_of_singleton in Hf. by subst.
          -- intros [-> Hall]. split; [done|]. intros f Hf. apply Hall.
             set_solver. }
  split.
  - intros f. rewrite Hlook. destruct (decide (f ∈ produces)).
    + by rewrite decide_True by (by apply elem_of_list_to_set).
    + by rewrite decide_False by (by rewrite elem_of_list_to_set).
  - rewrite Herrs. split; intros [-> Hall]; (split; [done|]); intros f Hf;
      apply Hall.
    + by apply elem_of_list_to_set.
    + by apply elem_of_list_to_set in Hf.
Qed.

Lemma collect_fold_spec (registry : gmap string (list string)) :
  (∀ f n, (map_fold collect_node (∅, []) registry).1 !! f = Some n →
          ∃ l, registry !! n = Some l ∧ f ∈ l)
  ∧ (∀ f n l, registry !! n = Some l → f ∈ l →
              is_Some ((map_fold collect_node (∅, []) registry).1 !! f))
  ∧ ((map_fold collect_node (∅, []) registry).2 = [] ↔ unique_owner registry).
Proof.
  pose (P := λ (acc : gmap string string * list string)
               (m : gmap string (list string)),
               (∀ f n, acc.1 !! f = Some n → ∃ l, m !! n = Some l ∧ f ∈ l)
               ∧ (∀ f n l, m !! n = Some l → f ∈ l → is_Some (acc.1 !! f))
               ∧ (acc.2 = [] ↔ unique_owner m)).
  change (P (map_fold collect_node (∅, []) registry) registry).
  apply map_fold_weak_ind; unfold P.
  - simpl. split; [|split].
    + intros f n Hf. by rewrite lookup_empty in Hf.
    + intros f n l Hn. by rewrite lookup_empty in Hn.
    + split; [|done]. intros _ f n1 n2 l1 l2 Hn1. by rewrite lookup_empty in Hn1.
  - intros i x m [po errs] Hi (Hown & Hall & Huniq). simpl in *.
    destruct (collect_node_spec i x po errs) as [Hlook Herrs].
    split; [|split].
    + intros f n. rewrite Hlook. case_decide as Hf.
      * intros [= <-]. exists x. by rewrite lookup_insert_eq.
      * intros Hn. destruct (Hown f n Hn) as (l & Hl & Hfl). exists l.
        split; [|done]. rewrite lookup_insert_ne; [done|]. by intros ->; congruence.
    + intros f n l Hn Hf. rewrite Hlook. case_decide; [done|].
      destruct (decide (i = n)) as [->|Hne].
      * rewrite lookup_insert_eq in Hn. by injection Hn as ->.
      * rewrite lookup_insert_ne in Hn by done. by eapply Hall.
    + rewrite Herrs, Huniq. split.
      * intros [Hm Hfresh] f n1 n2 l1 l2 H1 H2 Hf1 Hf2.
        destruct (decide (n1 = i)) as [->|Hne1], (decide (n2 = i)) as [->|Hne2];
          [done| | |].
        -- rewrite lookup_insert_eq in H1. injection H1 as ->.
           rewrite lookup_insert_ne in H2 by done.
           destruct (Hall f n2 l2 H2 Hf2) as [o Ho].
           by rewrite (Hfresh f Hf1) in Ho.
        -- rewrite lookup_insert_eq in H2. injection H2 as ->.
           rewrite lookup_insert_ne in H1 by done.
           destruct (Hall f n1 l1 H1 Hf1) as [o Ho].
           by rewrite (Hfresh f Hf2) in Ho.
        -- rewrite lookup_insert_ne in H1, H2 by done. by eapply Hm.
      * intros Hins. split.
        -- intros f n1 n2 l1 l2 H1 H2. apply Hins; rewrite lookup_insert_ne;
             (done || (intros ->; congruence)).
        -- intros f Hf. destruct (po !! f) as [n|] eqn:Hpo; [|done].
           destruct (Hown f n Hpo) as (l & Hl & Hfl).
           assert (i = n) as ->; [|congruence].
           apply (Hins f i n x l); [by rewrite lookup_insert_eq| |done|done].
           rewrite lookup_insert_ne; [done|]. by intros ->; congruence.
Qed.

(** X25: [collect_field_universe] goes through exactly when every field
    has at most one producing node; otherwise it stops with errors.  When
    it goes through, [producer_of] maps a field to a node exactly when
    that node produces it, the produces map holds each node's list as a
    set, and the universe holds exactly the produced fields. *)
Theorem collect_field_universe_unique registry :
  (is_Some (collect_field_universe registry) ↔ unique_owner registry)
  ∧ ∀ produces_map producer_of universe,
      collect_field_universe registry = Some (produces_map, producer_of, universe) →
      produces_map = list_to_set <$> registry
      ∧ (∀ f n, producer_of !! f = Some n
                ↔ ∃ l, registry !! n = Some l ∧ f ∈ l)
      ∧ (∀ f, f ∈ universe ↔ ∃ n l, registry !! n = Some l ∧ f ∈ l).
Proof.
  destruct (collect_fold_spec registry) as (Hown & Hall & Huniq).
  unfold collect_field_universe.
  destruct ((map_fold collect_node (∅, []) registry).2) as [|e errs] eqn:Herrs.
  - split.
    + split; [intros _; by apply Huniq|by eexists].
    + intros pm po U [= <- <- <-]. split; [done|]. split.
      * intros f n. split; [apply Hown|].
        intros (l & Hl & Hf). destruct (Hall f n l Hl Hf) as [n' Hn'].
        destruct (Hown f n' Hn') as (l' & Hl' & Hf').
        assert (unique_owner registry) as Hu by (by apply Huniq).
        by rewrite (Hu f n n' l l' Hl Hl' Hf Hf').
      * intros f. rewrite elem_of_union_list. split.
        -- intros (X & HX & Hf). apply list_elem_of_fmap in HX as ([n l] & -> & Hnl).
           apply elem_of_map_to_list in Hnl. exists n, l. split; [done|].
           by apply elem_of_list_to_set in Hf.
        -- intros (n & l & Hl & Hf). exists (list_to_set l). split.
           ++ apply list_elem_of_fmap. exists (n, l). split; [done|].
              by apply elem_of_map_to_list.
           ++ by apply elem_of_list_to_set.
  - split; [|done]. split; [by intros [? ?]|].
    intros Hu. apply Huniq in Hu. discriminate.
Qed.

Lemma collect_field_universe_unique_witness :
  collect_field_universe {[ "A" := ["a"; "b"]; "B" := ["b"] ]} = None
  ∧ ¬ unique_owner {[ "A" := ["a"; "b"]; "B" := ["b"] ]}.
Proof.
  assert (collect_field_universe {[ "A" := ["a"; "b"]; "B" := ["b"] ]} = None)
    as Hnone by (vm_compute; reflexivity).
  split; [exact Hnone|].
  intros Hu.
  apply (collect_field_universe_unique {[ "A" := ["a"; "b"]; "B" := ["b"] ]}) in Hu.
  rewrite Hnone in Hu. by destruct Hu.
Defined.

(** ** [topo_check_acyclic] *)

Lemma elem_of_edge_targets (g : gmap string (list string)) v :
  v ∈ edge_targets g ↔ ∃ u, edge g u v.
Proof.
  unfold edge_targets, edge, successors. rewrite elem_of_union_list. split.
  - intros (X & HX & Hv).
    apply list_elem_of_fmap in HX as ([u l] & -> & Hul).
    apply elem_of_map_to_list in Hul. exists u. rewrite Hul. simpl.
    by apply elem_of_list_to_set in Hv.
  - intros (u & Hu). destruct (g !! u) as [l|] eqn:Hl; simpl in Hu;
      [|by apply elem_of_nil in Hu].
    exists (list_to_set l). split; [|by apply elem_of_list_to_set].
    apply list_elem_of_fmap. exists (u, l). split; [done|].
    by apply elem_of_map_to_list.
Qed.

Lemma occurrences_cons v x l :
  occurrences v (x :: l)
  = ((if decide (x = v) then 1 else 0) + occurrences v l)%Z.
Proof.
  unfold occurrences. case_decide.
  - rewrite filter_cons_True by done. simpl. lia.
  - rewrite filter_cons_False by done. lia.
Qed.

Lemma occurrences_nonneg v l : (0 ≤ occurrences v l)%Z.
Proof. unfold occurrences. lia. Qed.

Lemma occurrences_zero v l : occurrences v l = 0%Z ↔ v ∉ l.
Proof.
  induction l as [|x l IH]; [by split; [intros _; apply not_elem_of_nil|]|].
  rewrite occurrences_cons, not_elem_of_cons.
  pose proof (occurrences_nonneg v l). case_decide; split.
  - lia.
  - intros [? _]. congruence.
  - intros Hz. split; [congruence|]. apply IH. lia.
  - intros [_ Hl]. apply IH in Hl. lia.
Qed.

Lemma in_edges_insert (g : gmap string (list string)) i x done v :
  g !! i = None →
  in_edges (<[i:=x]> g) done v
  = ((if decide (i ∈ done) then 0 else occurrences v x) + in_edges g done v)%Z.
Proof.
  intros Hi. unfold in_edges.
  rewrite map_fold_insert_L; [done| |done].
  intros j1 j2 z1 z2 y _ _ _. lia.
Qed.

Lemma in_edges_empty done v : in_edges ∅ done v = 0%Z.
Proof. unfold in_edges. by rewrite map_fold_empty. Qed.

Lemma in_edges_nonneg (g : gmap string (list string)) done v :
  (0 ≤ in_edges g done v)%Z.
Proof.
  induction g as [|i x m Hi IH] using map_ind.
  - by rewrite in_edges_empty.
  - rewrite in_edges_insert by done. pose proof (occurrences_nonneg v x).
    case_decide; lia.
Qed.

(** Putting a node among the done ones takes its edges out of the count. *)
Lemma in_edges_see (g : gmap string (list string)) u done v :
  u ∉ done →
  (in_edges g ({[u]} ∪ done) v + occurrences v (successors g u))%Z
  = in_edges g done v.
Proof.
  intros Hu. induction g as [|i x m Hi IH] using map_ind.
  - rewrite !in_edges_empty. unfold successors. by rewrite lookup_empty.
  - rewrite !in_edges_insert, successors_insert by done.
    destruct (decide (i = u)) as [->|Hne].
    + rewrite decide_True by set_solver. rewrite decide_False by done.
      assert (occurrences v (successors m u) = 0%Z) as Hz.
      { unfold successors. by rewrite Hi. }
      lia.
    + destruct (decide (i ∈ done)) as [Hin|Hout].
      * rewrite decide_True by set_solver. lia.
      * rewrite decide_False by set_solver. lia.
Qed.

(** A count of zero means that every predecessor is done. *)
Lemma in_edges_zero (g : gmap string (list string)) done v w :
  in_edges g done v = 0%Z → edge g w v → w ∈ done.
Proof.
  unfold edge. induction g as [|i x m Hi IH] using map_ind.
  - unfold successors. rewrite lookup_empty. simpl. intros _ Hw.
    by apply elem_of_nil in Hw.
  - rewrite in_edges_insert, successors_insert by done.
    pose proof (in_edges_nonneg m done v). pose proof (occurrences_nonneg v x).
    intros Hz Hw. destruct (decide (i = w)) as [->|Hne].
    + destruct (decide (w ∈ done)); [done|].
      assert (occurrences v x = 0%Z) as Hocc by lia.
      by apply occurrences_zero in Hocc.
    + apply IH; [|done]. case_decide; lia.
Qed.

Lemma foldl_count_edge_lookup l (d : gmap string Z) v :
  foldl count_edge d l !! v
  = if decide (v ∈ l) then Some (default 0 (d !! v) + occurrences v l)%Z
    else d !! v.
Proof.
  revert d. induction l as [|x l IH]; intros d; cbn [foldl].
  - by rewrite decide_False by apply not_elem_of_nil.
  - rewrite IH, occurrences_cons. unfold count_edge.
    destruct (decide (x = v)) as [->|Hne].
    + rewrite lookup_insert_eq. cbn [from_option id].
      rewrite (decide_True (P := v ∈ v :: l)) by (by left).
      case_decide as Hl; [f_equal; lia|].
      apply occurrences_zero in Hl. rewrite Hl. by f_equal.
    + rewrite lookup_insert_ne by done.
      destruct (decide (v ∈ l)) as [Hl|Hl].
      * rewrite decide_True by (by right). f_equal; lia.
      * rewrite decide_False; [done|]. apply not_elem_of_cons. by split.
Qed.

Lemma edge_targets_insert (g : gmap string (list string)) i x v :
  g !! i = None →
  v ∈ edge_targets (<[i:=x]> g) ↔ v ∈ x ∨ v ∈ edge_targets g.
Proof.
  intros Hi. rewrite !elem_of_edge_targets. unfold edge. split.
  - intros (u & Hu). rewrite successors_insert in Hu. case_decide; [by left|].
    right. by exists u.
  - intros [Hx|(u & Hu)].
    + exists i. rewrite successors_insert. by rewrite decide_True.
    + exists u. rewrite successors_insert. rewrite decide_False; [done|].
      intros ->. unfold successors in Hu. rewrite Hi in Hu.
      by apply elem_of_nil in Hu.
Qed.

Lemma in_edges_no_target (g : gmap string (list string)) done v :
  v ∉ edge_targets g → in_edges g done v = 0%Z.
Proof.
  induction g as [|i x m Hi IH] using map_ind; intros Hv.
  - apply in_edges_empty.
  - rewrite in_edges_insert by done.
    rewrite edge_targets_insert in Hv by done.
    rewrite IH by naive_solver.
    assert (occurrences v x = 0%Z) as -> by (apply occurrences_zero; naive_solver).
    by case_decide.
Qed.

(** The table holds exactly the nodes and the edge targets, each with
    the number of edges that lead to it. *)
Lemma initial_in_deg_lookup nodes (g : gmap string (list string)) v :
  initial_in_deg nodes g !! v
  = if decide (v ∈ nodes ∨ v ∈ edge_targets g) then Some (in_edges g ∅ v)
    else None.
Proof.
  unfold initial_in_deg. revert v.
  pose (P := λ (d : gmap string Z) (m : gmap string (list string)),
               ∀ v, d !! v = if decide (v ∈ nodes ∨ v ∈ edge_targets m)
                             then Some (in_edges m ∅ v) else None).
  change (P (map_fold (λ _ outs d, foldl count_edge d outs)
               (set_to_map (λ n, (n, 0%Z)) nodes) g) g).
  apply map_fold_weak_ind; unfold P.
  - intros v. rewrite in_edges_empty.
    assert (v ∉ edge_targets ∅) as Hnot.
    { rewrite elem_of_edge_targets. intros (u & Hu). unfold edge, successors in Hu.
      rewrite lookup_empty in Hu. by apply elem_of_nil in Hu. }
    case_decide as Hv.
    + apply lookup_set_to_map; [naive_solver|]. exists v. naive_solver.
    + apply eq_None_not_Some. intros [c Hc].
      apply lookup_set_to_map in Hc as (y & Hy & Heq); [|naive_solver].
      injection Heq as -> _. naive_solver.
  - intros i x m d Hi IH v.
    pose proof (edge_targets_insert m i x v Hi) as Hins.
    assert (in_edges (<[i:=x]> m) ∅ v = (occurrences v x + in_edges m ∅ v)%Z)
      as Hcount.
    { rewrite in_edges_insert by done. by rewrite decide_False by set_solver. }
    rewrite foldl_count_edge_lookup, Hcount, (IH v).
    destruct (decide (v ∈ x)) as [Hx|Hx].
    + rewrite (decide_True (P := v ∈ nodes ∨ v ∈ edge_targets (<[i:=x]> m)))
        by naive_solver.
      f_equal. case_decide as Hv; simpl; [lia|].
      rewrite in_edges_no_target by naive_solver. lia.
    + apply occurrences_zero in Hx as Hocc. rewrite Hocc.
      case_decide as Hv.
      * rewrite decide_True by naive_solver. f_equal; lia.
      * rewrite decide_False; [done|]. naive_solver.
Qed.

Lemma occurrences_nil v : occurrences v [] = 0%Z.
Proof. reflexivity. Qed.

(** The inner loop on the successor list [l], when every successor has a
    count at least its number of occurrences in [l]: no [KeyError], each
    count drops by the number of occurrences, and the nodes appended to
    the queue are, once each, the successors whose count reaches zero. *)
Lemma foldl_relax_spec l (d : gmap string Z) q :
  (∀ v, v ∈ l → ∃ c, d !! v = Some c ∧ (occurrences v l ≤ c)%Z) →
  ∃ d' new,
    foldl relax (Some (d, q)) l = Some (d', (q ++ new)%list)
    ∧ (∀ v, d' !! v = (λ c, (c - occurrences v l)%Z) <$> d !! v)
    ∧ NoDup new
    ∧ (∀ v, v ∈ new ↔ v ∈ l ∧ d !! v = Some (occurrences v l)).
Proof.
  revert d q. induction l as [|x l IH]; intros d q Hpre.
  - exists d, []. cbn [foldl]. rewrite app_nil_r. split; [done|]. split.
    { intros v. destruct (d !! v); simpl; [|done]. rewrite occurrences_nil.
      f_equal; lia. }
    split; [constructor|]. intros v. split; [by intros ?%elem_of_nil|].
    by intros [?%elem_of_nil _].
  - destruct (Hpre x) as (c & Hx & Hc); [by left|].
    rewrite occurrences_cons, decide_True in Hc by done.
    pose proof (occurrences_nonneg x l) as Hnn.
    cbn [foldl]. unfold relax at 2. rewrite Hx.
    set (d1 := <[x := (c - 1)%Z]> d).
    assert (∀ v, v ≠ x → d1 !! v = d !! v) as Hother.
    { intros v Hv. unfold d1. by rewrite lookup_insert_ne. }
    assert (d1 !! x = Some (c - 1)%Z) as Hd1x.
    { unfold d1. by rewrite lookup_insert_eq. }
    assert (∀ v, v ≠ x → occurrences v (x :: l) = occurrences v l) as Hocc.
    { intros v Hv. rewrite occurrences_cons. rewrite decide_False by done. lia. }
    assert (∀ v, v ∈ l → ∃ c', d1 !! v = Some c' ∧ (occurrences v l ≤ c')%Z)
      as Hpre1.
    { intros v Hv. destruct (decide (v = x)) as [->|Hne].
      - exists (c - 1)%Z. split; [done|lia].
      - destruct (Hpre v) as (c' & Hv' & Hc'); [by right|].
        exists c'. rewrite Hother, <- Hocc by done. done. }
    assert (∀ (d' : gmap string Z) v,
              (∀ w, d' !! w = (λ c, (c - occurrences w l)%Z) <$> d1 !! w) →
                    d' !! v = (λ c, (c - occurrences v (x :: l))%Z) <$> d !! v)
      as Hlook.
    { intros d' v Hd'. rewrite Hd'. destruct (decide (v = x)) as [->|Hne].
      - rewrite Hd1x, Hx. simpl. rewrite occurrences_cons, decide_True by done.
        f_equal; lia.
      - rewrite Hother, Hocc by done. done. }
    case_decide as Hzero.
    + destruct (IH d1 (q ++ [x])%list Hpre1) as (d' & new & Hrun & Hd' & Hnd & Hnew).
      assert (x ∉ l) as Hxl by (apply occurrences_zero; lia).
      exists d', (x :: new). rewrite Hrun. split.
      { by rewrite <- app_assoc. }
      split; [intros v; by apply Hlook|]. split.
      { constructor; [|done]. intros Hin. by apply Hnew in Hin as [? _]. }
      intros v. rewrite elem_of_cons, Hnew. split.
      * intros [->|[Hv Hdv]].
        -- split; [by left|]. rewrite Hx, occurrences_cons, decide_True by done.
           apply occurrences_zero in Hxl. f_equal; lia.
        -- assert (v ≠ x) as Hne by (intros ->; done).
           split; [by right|]. by rewrite <- Hother, Hocc.
      * intros [Hv Hdv]. destruct (decide (v = x)) as [|Hne]; [by left|right].
        apply elem_of_cons in Hv as [?|Hv]; [done|].
        split; [done|]. by rewrite Hother, <- Hocc.
    + destruct (IH d1 q Hpre1) as (d' & new & Hrun & Hd' & Hnd & Hnew).
      exists d', new. rewrite Hrun. split; [done|].
      split; [intros v; by apply Hlook|]. split; [done|].
      intros v. rewrite Hnew. destruct (decide (v = x)) as [->|Hne].
      * rewrite Hd1x, Hx, occurrences_cons, decide_True by done. split.
        -- intros [_ [= Heq]]. split; [by left|]. f_equal; lia.
        -- intros [_ [= Heq]]. split; [|f_equal; lia].
           destruct (decide (x ∈ l)) as [|Hout]; [done|].
           apply occurrences_zero in Hout. lia.
      * rewrite Hother, Hocc by done. rewrite elem_of_cons. naive_solver.
Qed.

Lemma nodup_length_le_size (l : list string) (X : gset string) :
  NoDup l → (∀ x, x ∈ l → x ∈ X) → (length l ≤ size X)%nat.
Proof.
  intros Hnd Hsub. rewrite <- (size_list_to_set (C := gset string) l) by done.
  apply subseteq_size. intros x Hx. apply Hsub. by apply elem_of_list_to_set in Hx.
Qed.

Section TopoLoop.
Variable g : gmap string (list string).

(** One iteration of the [while q:] loop keeps the invariant. *)
Lemma topo_inv_step d u rest order :
  topo_inv g d (u :: rest) order →
  ∃ d' q',
    foldl relax (Some (d, rest)) (successors g u) = Some (d', q')
    ∧ topo_inv g d' q' (order ++ [u])
    ∧ dom d' = dom d.
Proof.
  intros (Hkeys & Hcount & Hnd & Hzero & Htopo).
  assert (u ∉ (list_to_set order : gset string)) as Hu.
  { rewrite elem_of_list_to_set. apply NoDup_app in Hnd as (_ & Hdisj & _).
    intros Hin. apply (Hdisj u Hin). by left. }
  assert ((list_to_set (order ++ [u]) : gset string) = {[u]} ∪ list_to_set order)
    as Hset by set_solver.
  assert (∀ v c, d !! v = Some c →
                 c = (in_edges g ({[u]} ∪ list_to_set order) v
                      + occurrences v (successors g u))%Z) as Hsplit.
  { intros v c Hv. rewrite (in_edges_see g u _ v Hu). by apply Hcount. }
  destruct (foldl_relax_spec (successors g u) d rest)
    as (d' & new & Hrun & Hd' & Hnew_nd & Hnew).
  { intros v Hv. destruct (Hkeys v) as [c Hc].
    - apply elem_of_edge_targets. by exists u.
    - exists c. split; [done|]. rewrite (Hsplit v c Hc).
      pose proof (in_edges_nonneg g ({[u]} ∪ list_to_set order) v). lia. }
  assert (∀ v, v ∈ (order ++ u :: rest)%list →
               occurrences v (successors g u) = 0%Z) as Hold.
  { intros v Hv. pose proof (Hsplit v 0%Z (Hzero v Hv)).
    pose proof (in_edges_nonneg g ({[u]} ∪ list_to_set order) v).
    pose proof (occurrences_nonneg v (successors g u)). lia. }
  exists d', (rest ++ new)%list. split; [done|]. split; [|].
  - split; [|split; [|split; [|split]]].
    + intros v Hv. rewrite Hd'. destruct (Hkeys v Hv) as [c ->]. by eexists.
    + intros v c'. rewrite Hd', Hset.
      destruct (d !! v) as [c|] eqn:Hc; simpl; [|done].
      intros [= <-]. rewrite (Hsplit v c Hc). lia.
    + rewrite <- app_assoc. simpl.
      replace (order ++ u :: rest ++ new)%list
        with ((order ++ u :: rest) ++ new)%list by (by rewrite <- app_assoc).
      apply NoDup_app. split; [done|]. split; [|done].
      intros v Hv Hin. apply Hnew in Hin as [Hsucc Hdv].
      rewrite (Hzero v Hv) in Hdv. injection Hdv as Hdv.
      symmetry in Hdv. by apply occurrences_zero in Hdv.
    + intros v Hv. rewrite Hd'.
      replace ((order ++ [u]) ++ rest ++ new)%list
        with ((order ++ u :: rest) ++ new)%list in Hv
        by (by rewrite <- !app_assoc).
      apply elem_of_app in Hv as [Hv|Hv].
      * rewrite (Hzero v Hv). simpl. rewrite (Hold v Hv). done.
      * apply Hnew in Hv as [_ ->]. simpl. f_equal; lia.
    + intros i v Hi w Hw.
      destruct (decide (i < length order)%nat) as [Hlt|Hge].
      * rewrite lookup_app_l in Hi by done.
        destruct (Htopo i v Hi w Hw) as (j & Hj & Hjw).
        exists j. split; [done|]. rewrite lookup_app_l; [done|].
        apply lookup_lt_Some in Hjw. done.
      * rewrite lookup_app_r in Hi by lia.
        destruct (i - length order)%nat as [|k] eqn:Hk; simpl in Hi; [|done].
        injection Hi as <-.
        assert (w ∈ (list_to_set order : gset string)) as Hin.
        { apply (in_edges_zero g _ u w); [|done]. symmetry. apply Hcount.
          apply Hzero. apply elem_of_app. right. by left. }
        apply elem_of_list_to_set, list_elem_of_lookup in Hin as [j Hj].
        exists j. pose proof (lookup_lt_Some _ _ _ Hj).
        split; [lia|]. by rewrite lookup_app_l.
  - apply set_eq. intros v. rewrite !elem_of_dom, Hd'.
    by rewrite fmap_is_Some.
Qed.

(** The loop ends within the fuel, without [KeyError], in a state that
    satisfies the invariant with an empty queue. *)
Lemma topo_loop_spec fuel d q order :
  topo_inv g d q order →
  (size (dom d) ≤ fuel + length order)%nat →
  ∃ d' order',
    topo_loop fuel g d q order = Some order'
    ∧ topo_inv g d' [] order' ∧ dom d' = dom d.
Proof.
  revert d q order. induction fuel as [|fuel IH]; intros d q order Hinv Hfuel;
    destruct q as [|u rest]; try (by exists d, order).
  - exfalso. destruct Hinv as (_ & _ & Hnd & Hzero & _).
    pose proof (nodup_length_le_size (order ++ u :: rest) (dom d) Hnd) as Hlen.
    rewrite length_app in Hlen. simpl in Hlen.
    assert (length order + S (length rest) ≤ size (dom d))%nat; [|lia].
    apply Hlen. intros x Hx. apply elem_of_dom. rewrite (Hzero x Hx). by eexists.
  - destruct (topo_inv_step d u rest order Hinv) as (d1 & q1 & Hrun & Hinv1 & Hdom1).
    simpl. rewrite Hrun.
    destruct (IH d1 q1 (order ++ [u])%list Hinv1) as (d' & order' & Hloop & Hinv' & Hdom').
    { rewrite Hdom1, length_app. simpl. lia. }
    exists d', order'. split; [done|]. split; [done|]. by rewrite Hdom', Hdom1.
Qed.

Lemma reachable_last_edge a b : reachable g a b → ∃ u, edge g u b.
Proof. intros Hab. induction Hab as [a b Hab|a c b _ _ IH]; [by exists a|done]. Qed.

(** With every edge target output, no node can reach itself: along an
    edge the position in the output strictly grows. *)
Lemma topo_order_acyclic d order x :
  topo_inv g d [] order →
  (∀ v, v ∈ edge_targets g → v ∈ order) →
  ¬ reachable g x x.
Proof.
  intros (_ & _ & _ & _ & Htopo) Hall.
  assert (∀ a b, reachable g a b →
                 ∀ i, order !! i = Some b →
                      ∃ j, (j < i)%nat ∧ order !! j = Some a) as Hbefore.
  { intros a b Hab. induction Hab as [a b Hab|a c b Hac _ IH]; intros i Hi.
    - by apply (Htopo i b).
    - destruct (IH i Hi) as (j & Hj & Hjc).
      destruct (Htopo j c Hjc a Hac) as (k & Hk & Hka).
      exists k. split; [lia|done]. }
  intros Hxx.
  assert (x ∈ edge_targets g) as Hx.
  { apply elem_of_edge_targets. by apply (reachable_last_edge x). }
  apply Hall, list_elem_of_lookup in Hx as [i Hi].
  revert Hi. induction (lt_wf i) as [i _ IHi]. intros Hi.
  destruct (Hbefore x x Hxx i Hi) as (j & Hj & Hjx). by apply (IHi j).
Qed.
End TopoLoop.

Lemma topo_inv_init nodes (g : gmap string (list string)) q0 :
  NoDup q0 →
  (∀ v, v ∈ q0 ↔ initial_in_deg nodes g !! v = Some 0%Z) →
  topo_inv g (initial_in_deg nodes g) q0 [].
Proof.
  intros Hnd Hq0. split; [|split; [|split; [|split]]].
  - intros v Hv. rewrite initial_in_deg_lookup.
    rewrite decide_True by (by right). by eexists.
  - intros v c. rewrite initial_in_deg_lookup. case_decide; [|done].
    by intros [= <-].
  - done.
  - intros v Hv. by apply Hq0.
  - intros i v Hi. by rewrite lookup_nil in Hi.
Qed.

Lemma dom_initial_in_deg nodes (g : gmap string (list string)) :
  dom (initial_in_deg nodes g) = nodes ∪ edge_targets g.
Proof.
  apply set_eq. intros v. rewrite elem_of_dom, initial_in_deg_lookup, elem_of_union.
  case_decide as Hv; split.
  - done.
  - intros _. by eexists.
  - by intros [? ?].
  - done.
Qed.

(** The queue of [topo_check_acyclic] lists each zero entry once. *)
Lemma zero_entries_queue (d : gmap string Z) :
  NoDup (filter (λ n, d !! n = Some 0%Z) (map_to_list d).*1)
  ∧ ∀ v, v ∈ filter (λ n, d !! n = Some 0%Z) (map_to_list d).*1
         ↔ d !! v = Some 0%Z.
Proof.
  split; [apply NoDup_filter, NoDup_fst_map_to_list|].
  intros v. rewrite list_elem_of_filter. split; [by intros [? _]|].
  intros Hv. split; [done|]. apply list_elem_of_fmap. exists (v, 0%Z).
  split; [done|]. by apply elem_of_map_to_list.
Qed.

(** What [topo_check_from] returns. *)
Lemma topo_check_from_spec q0 nodes (g : gmap string (list string)) :
  NoDup q0 →
  (∀ v, v ∈ q0 ↔ initial_in_deg nodes g !! v = Some 0%Z) →
  ∃ order,
    topo_check_from q0 nodes g
    = Some (bool_decide (length order = size nodes), order)
    ∧ NoDup order
    ∧ (∀ v, v ∈ order → v ∈ nodes ∨ v ∈ edge_targets g)
    ∧ (∀ i v, order !! i = Some v →
              ∀ u, edge g u v → ∃ j, (j < i)%nat ∧ order !! j = Some u)
    ∧ (length order = size nodes → edge_targets g ⊆ nodes →
       ∀ x, ¬ reachable g x x).
Proof.
  intros Hnd Hq0. unfold topo_check_from.
  destruct (topo_loop_spec g (size (dom (initial_in_deg nodes g)))
              (initial_in_deg nodes g) q0 [])
    as (d' & order & Hrun & Hinv & Hdom); [by apply topo_inv_init|simpl; lia|].
  rewrite Hrun. exists order. split; [done|].
  pose proof Hinv as (_ & _ & Hnd' & Hzero & Htopo).
  rewrite app_nil_r in Hnd', Hzero.
  assert (∀ v, v ∈ order → v ∈ nodes ∨ v ∈ edge_targets g) as Hsub.
  { intros v Hv. apply elem_of_union. rewrite <- dom_initial_in_deg, <- Hdom.
    apply elem_of_dom. rewrite (Hzero v Hv). by eexists. }
  split; [done|]. split; [done|]. split; [done|].
  intros Hlen Htargets x. apply (topo_order_acyclic g d' order x Hinv).
  assert ((list_to_set order : gset string) = nodes) as Hall.
  { apply set_subseteq_size_eq.
    - intros v Hv. apply elem_of_list_to_set in Hv.
      destruct (Hsub v Hv) as [?|?]; [done|by apply Htargets].
    - rewrite size_list_to_set by done. lia. }
  intros v Hv.
  assert (v ∈ (list_to_set order : gset string)) as Hin
    by (rewrite Hall; by apply Htargets).
  by apply elem_of_list_to_set in Hin.
Qed.

(** X26: whatever the order in which the entries with count zero are
    queued, [topo_check_acyclic] ends within as many iterations as the
    table has entries and raises no [KeyError]; the order it returns has
    no repetition, holds only nodes and edge targets, and lists every
    node after all the nodes that have an edge to it. *)
Theorem topo_check_returns_topological_order q0 nodes g :
  NoDup q0 →
  (∀ v, v ∈ q0 ↔ initial_in_deg nodes g !! v = Some 0%Z) →
  ∃ ok order,
    topo_check_from q0 nodes g = Some (ok, order)
    ∧ ok = bool_decide (length order = size nodes)
    ∧ NoDup order
    ∧ (∀ v, v ∈ order → v ∈ nodes ∨ v ∈ edge_targets g)
    ∧ (∀ i v, order !! i = Some v →
              ∀ u, edge g u v → ∃ j, (j < i)%nat ∧ order !! j = Some u).
Proof.
  intros Hnd Hq0.
  destruct (topo_check_from_spec q0 nodes g Hnd Hq0)
    as (order & Hrun & Hnd' & Hsub & Htopo & _).
  exists (bool_decide (length order = size nodes)), order. by repeat split.
Qed.

Lemma topo_check_returns_topological_order_witness :
  NoDup ["A"]
  ∧ topo_check_from ["A"] {[ "A"; "B"; "C"; "D" ]} diamond_graph
    = Some (true, ["A"; "C"; "B"; "D"]).
Proof.
  assert (NoDup ["A"]) as Hnd by apply NoDup_singleton.
  split; [exact Hnd|].
  destruct (topo_check_returns_topological_order ["A"]
              {[ "A"; "B"; "C"; "D" ]} diamond_graph Hnd)
    as (ok & order & Hrun & _).
  - intros v. rewrite list_elem_of_singleton. split.
    + intros ->. vm_compute. reflexivity.
    + rewrite initial_in_deg_lookup. case_decide as Hv; [|done].
      intros [= Hz]. destruct (decide (v = "A")) as [|HA]; [done|]. exfalso.
      destruct Hv as [Hv|Hv].
      * assert (v = "B" ∨ v = "C" ∨ v = "D") as [->|[->| ->]] by set_solver;
          vm_compute in Hz; discriminate.
      * apply elem_of_edge_targets in Hv as (u & Hu).
        pose proof (in_edges_zero diamond_graph ∅ v u Hz Hu) as Hin.
        by apply not_elem_of_empty in Hin.
  - rewrite Hrun. vm_compute in Hrun. symmetry. exact Hrun.
Defined.

(** X27: when [topo_check_acyclic] answers [True] and every edge target
    is a defined node, no node of the graph can reach itself; the set
    [build_reachability] stores for a defined node is then exactly the
    simulator's [_downstream_nodes] of that node. *)
Theorem topo_check_true_means_acyclic sim nodes order :
  topo_check_acyclic nodes (node_graph sim) = Some (true, order) →
  edge_targets (node_graph sim) ⊆ nodes →
  (∀ x, ¬ reachable (node_graph sim) x x)
  ∧ ∀ src, src ∈ nodes →
           build_reachability nodes (node_graph sim) !! src
           = Some (_downstream_nodes sim src).
Proof.
  intros Hrun Htargets. unfold topo_check_acyclic in Hrun.
  destruct (zero_entries_queue (initial_in_deg nodes (node_graph sim)))
    as [Hnd Hq0].
  destruct (topo_check_from_spec _ nodes (node_graph sim) Hnd Hq0)
    as (order' & Hrun' & _ & _ & _ & Hacyclic).
  rewrite Hrun in Hrun'. injection Hrun' as Hok <-.
  assert (∀ x, ¬ reachable (node_graph sim) x x) as Hno.
  { apply Hacyclic; [|done]. symmetry in Hok. by apply bool_decide_eq_true in Hok. }
  split; [done|]. intros src Hsrc.
  rewrite lookup_build_reachability, decide_True by done. f_equal.
  apply set_eq. intros x.
  rewrite elem_of_downstream_nodes.
  destruct (reach_loop_enough (node_graph sim) src
              (reach_fuel (node_graph sim) src)) as [_ Hspec]; [done|].
  rewrite Hspec. split; [|by intros [? _]].
  intros Hx. split; [done|]. intros ->. by apply (Hno src).
Qed.

Lemma topo_check_true_means_acyclic_witness :
  topo_check_acyclic {[ "A"; "B" ]} (node_graph covered_sim)
  = Some (true, ["A"; "B"])
  ∧ build_reachability {[ "A"; "B" ]} (node_graph covered_sim) !! "A"
    = Some (_downstream_nodes covered_sim "A").
Proof.
  assert (topo_check_acyclic {[ "A"; "B" ]} (node_graph covered_sim)
          = Some (true, ["A"; "B"])) as Hrun by (vm_compute; reflexivity).
  split; [exact Hrun|].
  destruct (topo_check_true_means_acyclic covered_sim {[ "A"; "B" ]} ["A"; "B"] Hrun)
    as [_ Hreach].
  - intros v Hv. apply elem_of_edge_targets in Hv as (u & Hu).
    unfold edge, successors in Hu.
    destruct (decide (u = "A")) as [->|HA].
    + assert (node_graph covered_sim !! "A" = Some ["B"]) as Hg by reflexivity.
      rewrite Hg in Hu. simpl in Hu. apply list_elem_of_singleton in Hu as ->.
      set_solver.
    + assert (node_graph covered_sim !! u = None) as Hg
        by (by apply lookup_singleton_ne).
      rewrite Hg in Hu. by apply elem_of_nil in Hu.
  - apply Hreach. set_solver.
Defined.

(** X28: a registry that [collect_field_universe] accepts gives a
    simulator without leaks in [aggregate_only]: if the simulator's
    produces sets are the ones collected, a field produced by a
    non-aggregate node other than N that is not an always-cleared field is
    recorded with that node as its producer and is never in the clear set
    of [aggregate_only] on N. *)
Theorem accepted_registry_no_leak registry sim produces_map producer_of universe
    N D f :
  collect_field_universe registry = Some (produces_map, producer_of, universe) →
  _produces sim = produces_map →
  f ∈ produces_of sim D → D ≠ N → D ∉ _aggregate_nodes sim →
  f ∉ _reports_fixed sim →
  producer_of !! f = Some D ∧ f ∉ _clears_aggregate_only sim N.
Proof.
  intros Hcollect Hprod Hf HDN Hagg Hrep.
  destruct (collect_fold_spec registry) as (Hown & Hall & Huniq).
  unfold collect_field_universe in Hcollect.
  destruct ((map_fold collect_node (∅, []) registry).2) eqn:Herrs; [|done].
  injection Hcollect as <- <- <-.
  assert (unique_owner registry) as Hu by (by apply Huniq).
  assert (∀ n x, x ∈ produces_of sim n → ∃ l, registry !! n = Some l ∧ x ∈ l)
    as Hreg.
  { intros n x. unfold produces_of. rewrite Hprod, lookup_fmap.
    destruct (registry !! n) as [l|]; simpl; [|by intros ?%not_elem_of_empty].
    intros Hx. exists l. split; [done|]. by apply elem_of_list_to_set in Hx. }
  destruct (Hreg D f Hf) as (l & Hl & Hfl). split.
  - destruct (Hall f D l Hl Hfl) as [n Hn].
    destruct (Hown f n Hn) as (l' & Hl' & Hfl').
    by rewrite (Hu f D n l l' Hl Hl' Hfl Hfl').
  - rewrite elem_of_clears_aggregate_only.
    intros [HfN|[(d & _ & Hd & Hfd)|?]]; [| |done].
    + destruct (Hreg N f HfN) as (l' & Hl' & Hfl').
      by apply HDN, (Hu f D N l l').
    + destruct (Hreg d f Hfd) as (l' & Hl' & Hfl').
      by rewrite (Hu f D d l l' Hl Hl' Hfl Hfl') in Hagg.
Qed.

Lemma accepted_registry_no_leak_witness :
  collect_field_universe {[ "X" := ["a"; "b"]; "Y" := ["c"]; "Z" := ["d"] ]}
  = Some (_produces cyclic_sim,
          {[ "a" := "X"; "b" := "X"; "c" := "Y"; "d" := "Z" ]},
          {[ "a"; "b"; "c"; "d" ]})
  ∧ "c" ∉ _clears_aggregate_only cyclic_sim "X".
Proof.
  assert (collect_field_universe {[ "X" := ["a"; "b"]; "Y" := ["c"]; "Z" := ["d"] ]}
          = Some (_produces cyclic_sim,
                  {[ "a" := "X"; "b" := "X"; "c" := "Y"; "d" := "Z" ]},
                  {[ "a"; "b"; "c"; "d" ]})) as Hcollect
    by (vm_compute; reflexivity).
  split; [exact Hcollect|].
  destruct (accepted_registry_no_leak _ cyclic_sim _ _ _ "X" "Y" "c" Hcollect)
    as [_ Hout]; [reflexivity| |discriminate| | |exact Hout].
  - assert (produces_of cyclic_sim "Y" = {[ "c" ]}) as -> by reflexivity.
    by apply elem_of_singleton.
  - assert (_aggregate_nodes cyclic_sim = {[ "Z" ]}) as -> by reflexivity.
    intros Hin. apply elem_of_singleton in Hin. discriminate.
  - assert (_reports_fixed cyclic_sim = {[ "report" ]}) as -> by reflexivity.
    intros Hin. apply elem_of_singleton in Hin. discriminate.
Defined.
